(** * Multi-user server (mu_server.cpp): event loop, registry and shutdown

    A shallow embedding of [src/Multi-User Program/mu_server.cpp].  The
    globals of the program ([serverSocket], [socketFile], [clientSockets])
    and the locals of [main] that survive a pass of the [for(;;)] loop
    ([count], [buffer]) form an explicit [state]; system calls append to a
    chronological [trace].  What the operating system decides during a pass
    (the value returned by [accept], which descriptors are readable, what a
    [read] delivers) is an input of the pass.  A computation that the C++
    standard leaves undefined (a store past the end of [buffer], signed
    overflow of [count], a pointer formed past the end of a string literal,
    a descriptor-set macro on a descriptor outside the set) yields [None].
    Every system call returns to its caller; the one signal considered is
    SIGINT, taken between two passes. *)

From Stdlib Require Import String Ascii ZArith List Bool Lia.
Import ListNotations.
Open Scope Z_scope.

(* ================================================================== *)
(** * Part I: the program and the notions used to speak about it *)

(** Sequencing of computations that may be undefined. *)
Notation "'do' x <- e ; k" :=
  (match e with Some x => k | None => None end)
  (at level 10, x pattern, e at level 100, k at level 200).

(* ------------------------------------------------------------------ *)
(** ** Bytes, string literals and C strings *)

Definition bytes : Type := list ascii.

Definition NUL : ascii := Ascii.zero.

(** A string literal is an array holding its characters and one
    terminating zero byte; [sizeof] of the literal counts that byte. *)
Definition literal (s : string) : bytes := list_ascii_of_string s ++ [NUL].

Definition sizeof (arr : bytes) : nat := length arr.

Definition HELLO : bytes := literal "HELLO".
Definition ENTERCMD : bytes := literal "ENTERCMD".

(** The literal written ["quit\0"] in the source: an explicit zero byte
    followed by the implicit one. *)
Definition QUIT : bytes := literal (String.append "quit" (String NUL EmptyString)).

(** Reading a char array as text ([cout << buffer]): the bytes before the
    first zero byte.  There is no zero byte inside the array exactly when
    the read runs past its end. *)
Fixpoint c_str (mem : bytes) : option bytes :=
  match mem with
  | [] => None
  | c :: rest =>
      if Ascii.eqb c NUL then Some []
      else match c_str rest with
           | Some t => Some (c :: t)
           | None => None
           end
  end.

Definition uchar (c : ascii) : Z := Z.of_N (N_of_ascii c).

(** [strcmp]: compares byte by byte up to and including the first zero
    byte; running off either array is an out-of-bounds read. *)
Fixpoint strcmp (a b : bytes) : option Z :=
  match a, b with
  | x :: a', y :: b' =>
      if Ascii.eqb x y
      then (if Ascii.eqb x NUL then Some 0 else strcmp a' b')
      else Some (uchar x - uchar y)
  | _, _ => None
  end.

(** [arr[i] = v]: defined only for an index inside the array. *)
Definition store (arr : bytes) (i : Z) (v : ascii) : option bytes :=
  if (0 <=? i) && (i <? Z.of_nat (length arr))
  then Some (firstn (Z.to_nat i) arr ++ v :: skipn (S (Z.to_nat i)) arr)
  else None.

(** [read(fd, buf, n)]: [None] on the wire is a transport error (result
    -1); otherwise at most [n] of the pending bytes are copied to the front
    of [buf] and their number is returned (0 when the peer has closed). *)
Definition sys_read (wire : option bytes) (n : nat) (buf : bytes) : Z * bytes :=
  match wire with
  | None => (-1, buf)
  | Some data =>
      let got := firstn n data in
      (Z.of_nat (length got), got ++ skipn (length got) buf)
  end.

(* ------------------------------------------------------------------ *)
(** ** Descriptor sets *)

(** An [fd_set] is a bit mask of [FD_SETSIZE] bits indexed by descriptor;
    the macros are undefined for a descriptor outside that range. *)
Definition fd_set : Type := Z.

Definition FD_SETSIZE : Z := 1024.

Definition fd_in_range (fd : Z) : bool := (0 <=? fd) && (fd <? FD_SETSIZE).

Definition FD_ZERO : fd_set := 0.

Definition FD_SET (fd : Z) (s : fd_set) : option fd_set :=
  if fd_in_range fd then Some (Z.lor s (Z.shiftl 1 fd)) else None.

Definition FD_ISSET (fd : Z) (s : fd_set) : option bool :=
  if fd_in_range fd then Some (Z.testbit s fd) else None.

(** Number of descriptors below [nfds] whose bit is set. *)
Definition fd_count (nfds : Z) (s : fd_set) : Z :=
  Z.of_nat (length (filter (fun k => Z.testbit s (Z.of_nat k)) (seq 0 (Z.to_nat nfds)))).

(* ------------------------------------------------------------------ *)
(** ** Program state *)

(** [struct clientSocketStruct]; the peer address fields [un] and [size]
    are filled by [accept] and never read. *)
Record clientSocketStruct : Type := mkClient { id : Z; socket : Z }.

(** The lines written to the console: the notice of line 126, the
    argument of [perror], and the three messages about a client. *)
Inductive diag : Type :=
| LogNoClients
| LogPerror (msg : bytes)
| LogClosed (who : Z)
| LogSays (who : Z) (text : bytes)
| LogQuit (who : Z).

(** The calls the program makes, in the order it makes them.  A call on
    a client carries the client's structure: descriptors are reused by the
    system, ids are not.  [EvClose] is [closeSocket] ([close] and [delete]). *)
Inductive event : Type :=
| EvAccept (ret : Z)
| EvWrite (c : clientSocketStruct) (data : bytes)
| EvRead (c : clientSocketStruct) (ret : Z)
| EvClose (c : clientSocketStruct)
| EvCloseServer (fd : Z)
| EvUnlink (path : string)
| EvExit (code : Z)
| EvLog (d : diag).

(** The globals, the locals of [main] that outlive a pass, the blocking
    mode of the listening socket ([O_NONBLOCK]) and the calls made so far. *)
Record state : Type := mkState {
  serverSocket : Z;
  socketFile : string;
  nonblock : bool;
  clientSockets : list clientSocketStruct;
  count : Z;
  buffer : bytes;
  trace : list event
}.

Definition emit (e : event) (st : state) : state :=
  mkState (serverSocket st) (socketFile st) (nonblock st) (clientSockets st)
          (count st) (buffer st) (trace st ++ [e]).

Definition set_nonblock (b : bool) (st : state) : state :=
  mkState (serverSocket st) (socketFile st) b (clientSockets st)
          (count st) (buffer st) (trace st).

Definition set_clients (l : list clientSocketStruct) (st : state) : state :=
  mkState (serverSocket st) (socketFile st) (nonblock st) l
          (count st) (buffer st) (trace st).

Definition set_count (n : Z) (st : state) : state :=
  mkState (serverSocket st) (socketFile st) (nonblock st) (clientSockets st)
          n (buffer st) (trace st).

Definition set_buffer (b : bytes) (st : state) : state :=
  mkState (serverSocket st) (socketFile st) (nonblock st) (clientSockets st)
          (count st) b (trace st).

(** What the environment decides during one pass. *)
Record pass_env : Type := mkEnv {
  accept_ret : Z;               (* value returned by accept, -1 on failure *)
  readable : fd_set;            (* descriptors with pending input *)
  select_fails : bool;          (* select returns -1 *)
  rx : Z -> option bytes        (* what a read on a descriptor finds *)
}.

(* ------------------------------------------------------------------ *)
(** ** The functions of mu_server.cpp *)

Definition INT_MAX : Z := 2147483647.

Definition sizeof_buffer : nat := 100.

(** [write(fd, buf, n)] transmits the first [n] bytes of [buf]; the
    program ignores the result. *)
Definition sys_write (c : clientSocketStruct) (buf : bytes) (n : nat) (st : state) : state :=
  emit (EvWrite c (firstn n buf)) st.

(** Lines 131-139 and 162-170: accept, number, greet and save a client. *)
Definition accept_client (ret : Z) (st : state) : option state :=
  if count st <? INT_MAX then
    let c := mkClient (count st + 1) ret in
    let st1 := set_count (count st + 1) (emit (EvAccept ret) st) in
    let st2 := sys_write c HELLO (sizeof HELLO) st1 in
    Some (set_clients (clientSockets st2 ++ [c]) st2)
  else None.

(** [closeSocket]: close the descriptor and delete the structure. *)
Definition closeSocket (c : clientSocketStruct) (st : state) : state :=
  emit (EvClose c) st.

(** [v.erase(v.begin() + i)]: the elements behind index [i] move one place
    to the front. *)
Definition vec_erase {A : Type} (i : nat) (v : list A) : list A :=
  firstn i v ++ skipn (S i) v.

(** [clientSockets.erase(clientSockets.begin() + i)]. *)
Definition erase (i : nat) (st : state) : state :=
  set_clients (vec_erase i (clientSockets st)) st.

(** The argument of [perror] on line 180 is the literal advanced by the
    client's id; it designates text only while it stays inside the
    literal. *)
Definition perror_arg (c : clientSocketStruct) : option bytes :=
  let lit := literal "client socket " in
  if (0 <=? id c) && (id c <? Z.of_nat (sizeof lit))
  then c_str (skipn (Z.to_nat (id c)) lit)
  else None.

(** Lines 175-217: the body of the scan loop at index [i]. *)
Definition service (env : pass_env) (readset : fd_set) (i : nat) (st : state)
  : option state :=
  do c <- nth_error (clientSockets st) i;
  do ready <- FD_ISSET (socket c) readset;
  if ready then
    let '(nbytes, buf) := sys_read (rx env (socket c)) sizeof_buffer (buffer st) in
    let st1 := emit (EvRead c nbytes) (set_buffer buf st) in
    if nbytes <? 0 then
      do msg <- perror_arg c;
      Some (erase i (closeSocket c (emit (EvLog (LogPerror msg)) st1)))
    else if nbytes =? 0 then
      Some (erase i (closeSocket c (emit (EvLog (LogClosed (id c))) st1)))
    else
      do buf' <- store buf nbytes NUL;
      do text <- c_str buf';
      let st2 := emit (EvLog (LogSays (id c) text)) (set_buffer buf' st1) in
      do r <- strcmp buf' QUIT;
      if r =? 0 then
        Some (erase i (closeSocket c (emit (EvLog (LogQuit (id c))) st2)))
      else
        Some (sys_write c ENTERCMD (sizeof ENTERCMD) st2)
  else Some st.

(** Lines 173-218: [for(int i=0; i < clientSockets.size(); i++)].  The
    index advances after every body, also after an [erase].  The recursion
    is on a bound for the number of turns; the length of the vector is
    enough for the loop to stop on its own condition ([scan_fuel_enough]). *)
Fixpoint scan (fuel : nat) (env : pass_env) (readset : fd_set) (i : nat) (st : state)
  : option state :=
  match fuel with
  | O => Some st
  | S fuel' =>
      if (i <? length (clientSockets st))%nat then
        do st' <- service env readset i st;
        scan fuel' env readset (S i) st'
      else Some st
  end.

(** Lines 286-294: the loop of [prepareFDReadSet] over the saved clients. *)
Fixpoint add_clients (l : list clientSocketStruct) (maxFD : Z) (readset : fd_set)
  : option (Z * fd_set) :=
  match l with
  | [] => Some (maxFD, readset)
  | c :: l' =>
      do readset' <- FD_SET (socket c) readset;
      add_clients l' (if socket c >? maxFD then socket c else maxFD) readset'
  end.

(** [prepareFDReadSet]: returns [maxFD] and the filled set. *)
Definition prepareFDReadSet (st : state) : option (Z * fd_set) :=
  let maxFD := 0 in
  do readset <- FD_SET (serverSocket st) FD_ZERO;
  add_clients (clientSockets st) maxFD readset.

(** [select(nfds, &readset, NULL, NULL, &timeout)] with a zero timeout:
    only descriptors below [nfds] are examined; on success the set is
    narrowed to the readable ones and their number returned, on failure
    the set is left as it was. *)
Definition select (nfds : Z) (readset : fd_set) (env : pass_env) : Z * fd_set :=
  if select_fails env then (-1, readset)
  else
    let ready := Z.land (Z.land readset (Z.ones nfds)) (readable env) in
    (fd_count nfds ready, ready).

(** Lines 124-220: one pass of the [for(;;)] loop of [main]. *)
Definition pass (env : pass_env) (st : state) : option state :=
  if (length (clientSockets st) =? 0)%nat then
    let st1 := set_nonblock false (emit (EvLog LogNoClients) st) in
    accept_client (accept_ret env) st1
  else
    let st1 := set_nonblock true st in
    do (maxFD, readset0) <- prepareFDReadSet st1;
    let '(ret, readset) := select (maxFD + 1) readset0 env in
    if ret =? 0 then Some st1
    else
      do server_ready <- FD_ISSET (serverSocket st1) readset;
      do st2 <- (if server_ready then accept_client (accept_ret env) st1 else Some st1);
      scan (length (clientSockets st2)) env readset 0 st2.

(** [cleanup], registered with [atexit]. *)
Definition cleanup (st : state) : state :=
  let st1 := emit (EvCloseServer (serverSocket st)) st in
  let st2 := fold_left (fun s c => closeSocket c s) (clientSockets st1) st1 in
  emit (EvUnlink (socketFile st2)) st2.

(** [exit(code)]: run the registered exit function, then leave. *)
Definition exit_process (code : Z) (st : state) : state :=
  emit (EvExit code) (cleanup st).

Definition EXIT_SUCCESS : Z := 0.

Definition signalHandler (signal : Z) (st : state) : state :=
  exit_process EXIT_SUCCESS st.

(** The state in which the loop is entered: no client, nothing counted,
    [buffer] holding whatever 100 bytes the stack had. *)
Definition initial (srv : Z) (path : string) (buf : bytes) : state :=
  mkState srv path false [] 0 buf [].

(** The [for(;;)] loop, for as many passes as there are inputs. *)
Fixpoint run (envs : list pass_env) (st : state) : option state :=
  match envs with
  | [] => Some st
  | env :: rest => do st' <- pass env st; run rest st'
  end.

(* ------------------------------------------------------------------ *)
(** ** Payload text *)

(** The bytes of a payload before its first zero byte (the whole payload
    when it has none). *)
Fixpoint until_nul (p : bytes) : bytes :=
  match p with
  | [] => []
  | c :: rest => if Ascii.eqb c NUL then [] else c :: until_nul rest
  end.

Definition quit_text : bytes := list_ascii_of_string "quit".

(** State of the loop once a payload has been read, terminated and
    logged (lines 177, 200 and 201). *)
Definition logged (c : clientSocketStruct) (p : bytes) (st : state) : state :=
  emit (EvLog (LogSays (id c) (until_nul p)))
    (set_buffer (p ++ NUL :: skipn (S (length p)) (buffer st))
       (emit (EvRead c (Z.of_nat (length p)))
          (set_buffer (p ++ skipn (length p) (buffer st)) st))).

(* ------------------------------------------------------------------ *)
(** ** Summary of a step *)

(** The events appended between two states of a run. *)
Definition since (st st' : state) : list event :=
  skipn (length (trace st)) (trace st').

(** Fields that no step of the loop changes. *)
Definition same_endpoint (st st' : state) : Prop :=
  serverSocket st' = serverSocket st /\ socketFile st' = socketFile st.

(** Why the loop body drops a client: what its read returned and what was
    logged before the close. *)
Definition drop_reason (c : clientSocketStruct) (r : Z) (d : list diag) : Prop :=
  (r < 0 /\ exists msg, d = [LogPerror msg]) \/
  (r = 0 /\ d = [LogClosed (id c)]) \/
  (0 < r /\ d = [LogSays (id c) quit_text; LogQuit (id c)]).

(** The three things the loop body can do at index [i], holding client [c]
    whose descriptor is ([ready = true]) or is not in the read set. *)
Inductive serviced (ready : bool) (i : nat) (c : clientSocketStruct) (st st' : state)
  : Prop :=
| SvIdle :
    ready = false ->
    st' = st ->
    serviced ready i c st st'
| SvDropped (r : Z) (d : list diag) :
    ready = true ->
    drop_reason c r d ->
    clientSockets st' = vec_erase i (clientSockets st) ->
    trace st' = trace st ++ EvRead c r :: map EvLog d ++ [EvClose c] ->
    serviced ready i c st st'
| SvPrompted (r : Z) (text : bytes) :
    ready = true ->
    0 < r ->
    text <> quit_text ->
    clientSockets st' = clientSockets st ->
    trace st' = trace st ++ [EvRead c r; EvLog (LogSays (id c) text); EvWrite c ENTERCMD] ->
    serviced ready i c st st'.

(* ------------------------------------------------------------------ *)
(** ** Growth of the trace *)

(** The trace only grows, and the endpoint and its name stay what they are. *)
Definition grows_from (st0 st : state) : Prop :=
  (exists evs, trace st = trace st0 ++ evs) /\ same_endpoint st0 st.

(* ------------------------------------------------------------------ *)
(** ** The wire protocol of one client *)

Fixpoint bytes_eqb (a b : bytes) : bool :=
  match a, b with
  | [], [] => true
  | x :: a', y :: b' => Ascii.eqb x y && bytes_eqb a' b'
  | _, _ => false
  end.

(** Where a client stands, judged by the calls made on it so far. *)
Inductive phase : Type :=
| Unborn                (* never accepted *)
| Awaiting              (* greeted or prompted: the next call is a read *)
| Got (r : Z)           (* a read returned [r] and has not been answered *)
| Gone                  (* closed *)
| Broken.               (* a call out of turn *)

Definition protocol_step (k : Z) (q : phase) (e : event) : phase :=
  match e with
  | EvWrite c d =>
      if id c =? k then
        match q with
        | Unborn => if bytes_eqb d HELLO then Awaiting else Broken
        | Got r => if (0 <? r) && bytes_eqb d ENTERCMD then Awaiting else Broken
        | _ => Broken
        end
      else q
  | EvRead c r =>
      if id c =? k then match q with Awaiting => Got r | _ => Broken end else q
  | EvClose c =>
      if id c =? k then match q with Awaiting | Got _ => Gone | _ => Broken end else q
  | _ => q
  end.

Definition protocol_from (k : Z) (q : phase) (tr : list event) : phase :=
  fold_left (protocol_step k) tr q.

Definition protocol (k : Z) (tr : list event) : phase := protocol_from k Unborn tr.

(** Number of [close] calls made on client [k]. *)
Definition is_close (k : Z) (e : event) : bool :=
  match e with EvClose c => id c =? k | _ => false end.

Definition closes (k : Z) (tr : list event) : nat := length (filter (is_close k) tr).

(* ------------------------------------------------------------------ *)
(** ** Agreement of registry and trace *)

Definition registered (k : Z) (l : list clientSocketStruct) : bool :=
  existsb (fun c => id c =? k) l.

(** Where client number [k] must stand in a state of the loop. *)
Definition expected (st : state) (k : Z) : phase :=
  if registered k (clientSockets st) then Awaiting
  else if (1 <=? k) && (k <=? count st) then Gone
  else Unborn.

Record consistent (st : state) : Prop := mkConsistent {
  count_nonneg : 0 <= count st;
  ids_distinct : NoDup (map id (clientSockets st));
  ids_counted : forall c, In c (clientSockets st) -> 1 <= id c <= count st;
  in_protocol : forall k, protocol k (trace st) = expected st k
}.

(* ------------------------------------------------------------------ *)
(** ** Projections of the trace on one client *)

Definition writes_to (k : Z) (tr : list event) : list bytes :=
  flat_map (fun e => match e with
                     | EvWrite c d => if id c =? k then [d] else []
                     | _ => []
                     end) tr.

Definition reads_of (k : Z) (tr : list event) : list Z :=
  flat_map (fun e => match e with
                     | EvRead c r => if id c =? k then [r] else []
                     | _ => []
                     end) tr.

(* ------------------------------------------------------------------ *)
(** ** A sample session, used to exercise the statements below *)

(** The mask with exactly the listed descriptors set. *)
Definition fd_mask (l : list Z) : fd_set :=
  fold_right (fun fd s => Z.lor s (Z.shiftl 1 fd)) 0 l.

Definition stack_bytes : bytes := repeat "x"%char sizeof_buffer.

(** Listening on descriptor 3, bound to [mu.sock]. *)
Definition boot : state := initial 3 "mu.sock" stack_bytes.

Definition text (s : string) : bytes := list_ascii_of_string s.

(** A first client connects on descriptor 4, a second on descriptor 5. *)
Definition env_first : pass_env := mkEnv 4 0 false (fun _ => None).
Definition env_second : pass_env := mkEnv 5 (fd_mask [3]) false (fun _ => None).

(** Both clients have sent something: the first [says4], the second [says5]. *)
Definition env_both (says4 says5 : option bytes) : pass_env :=
  mkEnv (-1) (fd_mask [4; 5]) false (fun fd => if fd =? 4 then says4 else says5).

Definition after (envs : list pass_env) : state :=
  match run envs boot with Some st => st | None => boot end.

Definition client1 : clientSocketStruct := mkClient 1 4.
Definition client2 : clientSocketStruct := mkClient 2 5.

(* ------------------------------------------------------------------ *)
(** ** Segments of the trace *)

(** What a single step appends. *)
Inductive segment : list event -> Prop :=
| SegNote : segment [EvLog LogNoClients]
| SegAccept (ret : Z) (c : clientSocketStruct) :
    segment [EvAccept ret; EvWrite c HELLO]
| SegDrop (c : clientSocketStruct) (r : Z) (d : list diag) :
    drop_reason c r d ->
    segment (EvRead c r :: map EvLog d ++ [EvClose c])
| SegPrompt (c : clientSocketStruct) (r : Z) (said : bytes) :
    0 < r -> said <> quit_text ->
    segment [EvRead c r; EvLog (LogSays (id c) said); EvWrite c ENTERCMD].

Inductive segments : list event -> Prop :=
| SegsNil : segments []
| SegsSnoc (evs seg : list event) :
    segments evs -> segment seg -> segments (evs ++ seg).

(** Progress of the loop from [st0]: the trace has grown by whole
    segments, and a client registered in [st0] is still registered unless
    it has been closed since. *)
Definition progress (st0 st : state) : Prop :=
  exists evs,
    trace st = trace st0 ++ evs /\
    segments evs /\
    forall c, In c (clientSockets st0) -> In c (clientSockets st) \/ In (EvClose c) evs.


(* ------------------------------------------------------------------ *)
(** ** Orders of release at shutdown *)





(* ------------------------------------------------------------------ *)
(** ** The client-quit path *)

(** The events of the client-quit path (lines 204-210). *)
Definition quit_path (c : clientSocketStruct) (n : nat) : list event :=
  [EvRead c (Z.of_nat n); EvLog (LogSays (id c) quit_text);
   EvLog (LogQuit (id c)); EvClose c].

(* ------------------------------------------------------------------ *)
(** ** The candidate set *)

(** The descriptors that make up the candidate set. *)
Definition candidates (st : state) : list Z :=
  serverSocket st :: map socket (clientSockets st).

(* ------------------------------------------------------------------ *)
(** ** Events of the scan *)

(** An event of the scan: a call on a client whose descriptor is in the
    read set, or a log line. *)
Definition on_ready (readset : fd_set) (e : event) : Prop :=
  match e with
  | EvRead c _ | EvWrite c _ | EvClose c => FD_ISSET (socket c) readset = Some true
  | EvLog _ => True
  | _ => False
  end.

Definition scanned (readset : fd_set) (st0 st : state) : Prop :=
  (exists evs, trace st = trace st0 ++ evs /\ Forall (on_ready readset) evs) /\
  (forall c, In c (clientSockets st0) ->
             FD_ISSET (socket c) readset <> Some true ->
             In c (clientSockets st)).

(* ------------------------------------------------------------------ *)
(** ** Registration and acknowledgment *)

(** No call is made on client [c] by event [e]. *)
Definition untouched (c : clientSocketStruct) (e : event) : Prop :=
  match e with
  | EvRead c' _ | EvWrite c' _ | EvClose c' => c' <> c
  | _ => True
  end.


(* ------------------------------------------------------------------ *)
(** ** Inputs under which a pass is defined *)

(** Every descriptor the program holds can be put in a descriptor set. *)
Definition sockets_in_range (st : state) : Prop :=
  fd_in_range (serverSocket st) = true /\
  forall c, In c (clientSockets st) -> fd_in_range (socket c) = true.


(* ------------------------------------------------------------------ *)
(** ** Counting over the trace *)

(** The client a call is made on. *)
Definition client_of (e : event) : option clientSocketStruct :=
  match e with
  | EvRead c _ | EvWrite c _ | EvClose c => Some c
  | _ => None
  end.

(** Number of [accept] calls, and of [closeSocket] calls on any client. *)
Definition accepts (tr : list event) : nat :=
  length (filter (fun e => match e with EvAccept _ => true | _ => false end) tr).

Definition all_closes (tr : list event) : nat :=
  length (filter (fun e => match e with EvClose _ => true | _ => false end) tr).

(** Ids strictly increasing along a vector of clients. *)
Fixpoint ascending (l : list Z) : Prop :=
  match l with
  | [] => True
  | x :: rest => Forall (fun y => x < y) rest /\ ascending rest
  end.

(* ------------------------------------------------------------------ *)
(** ** Startup: lines 55-102 of [main] *)

(** [strncpy(dst, src, n)]: the [n] bytes written are those of [src] up to
    its zero byte, then zero bytes; nothing is written behind them, and no
    zero byte at all when [src] has [n] or more characters.  Running off
    [src] or past [dst] is undefined. *)
Fixpoint strncpy_written (src : bytes) (n : nat) : option bytes :=
  match n with
  | O => Some []
  | S n' =>
      match src with
      | [] => None
      | c :: rest =>
          if Ascii.eqb c NUL then Some (repeat NUL (S n'))
          else do w <- strncpy_written rest n'; Some (c :: w)
      end
  end.

Definition strncpy (dst src : bytes) (n : nat) : option bytes :=
  if (n <=? length dst)%nat
  then do w <- strncpy_written src n; Some (w ++ skipn n dst)
  else None.

(** What the system answers during startup, and what the stack holds
    where [un.sun_path] is placed. *)
Record start_env : Type := mkStart {
  socket_ret : Z;
  stack_un : bytes;
  bind_ret : Z;
  listen_ret : Z
}.

Inductive start_event : Type :=
| StUsage (prog : string)
| StSocket (ret : Z)
| StPerror (what : string)
| StBind (fd : Z) (sun_path : bytes) (ret : Z)
| StListen (fd backlog ret : Z)
| StAtexit
| StSignal.

(** [main] either returns before the loop or enters it. *)
Inductive started : Type :=
| Returned (code : Z)
| Looping (st : state).

(** Lines 55-102.  [sun_path_size] stands for [sizeof(un.sun_path)], a
    constant of the system headers; [un] is not initialised, so its path
    array starts as [stack_un].  An empty [argv] leaves [argv[0]] null. *)
Definition startup (sun_path_size : nat) (argv : list string) (e : start_env)
           (buf : bytes) : option (list start_event * started) :=
  match argv with
  | [] => None
  | [prog; file] =>
      let socketFile := file in
      let serverSocket := socket_ret e in
      if serverSocket <? 0 then
        Some ([StSocket serverSocket; StPerror "server socket"], Returned (-1))
      else
        do sun_path <- strncpy (stack_un e) (literal socketFile) (sun_path_size - 1);
        let result := bind_ret e in
        if result <? 0 then
          Some ([StSocket serverSocket; StBind serverSocket sun_path result;
                 StPerror "bind"], Returned (-1))
        else
          let result' := listen_ret e in
          if result' <? 0 then
            Some ([StSocket serverSocket; StBind serverSocket sun_path result;
                   StListen serverSocket 10 result'; StPerror "listen"], Returned (-1))
          else
            Some ([StSocket serverSocket; StBind serverSocket sun_path result;
                   StListen serverSocket 10 result'; StAtexit; StSignal],
                  Looping (initial serverSocket socketFile buf))
  | prog :: _ => Some ([StUsage prog], Returned (-1))
  end.

(** The whole program up to an interrupt: startup, as many passes as there
    are inputs, then SIGINT. *)
Definition interrupted (sun_path_size : nat) (argv : list string) (e : start_env)
           (buf : bytes) (envs : list pass_env) (signal : Z)
  : option (list start_event * started) :=
  do (evs, s) <- startup sun_path_size argv e buf;
  match s with
  | Returned code => Some (evs, Returned code)
  | Looping st0 => do st <- run envs st0; Some (evs, Looping (signalHandler signal st))
  end.

(** Numbering of the clients: the counter is the largest id handed out,
    ids rise along the vector, and every client named in the trace has an
    id that was handed out. *)
Definition numbered (st : state) : Prop :=
  0 <= count st /\
  ascending (map id (clientSockets st)) /\
  (forall c, In c (clientSockets st) -> 1 <= id c <= count st) /\
  (forall e c, In e (trace st) -> client_of e = Some c -> 1 <= id c <= count st).

(** The books of the loop: accepted clients are counted, and each is
    registered or closed. *)
Definition balanced (st : state) : Prop :=
  count st = Z.of_nat (accepts (trace st)) /\
  Z.of_nat (length (clientSockets st)) + Z.of_nat (all_closes (trace st)) = count st.

(* ================================================================== *)
(** * Part II: properties *)

(* ------------------------------------------------------------------ *)
(** ** C strings: what the text functions see in a terminated array *)

Lemma c_str_terminated (p rest : bytes) :
  c_str (p ++ NUL :: rest) = Some (until_nul p).
Proof.
  induction p as [|c p IH]; simpl.
  - reflexivity.
  - destruct (Ascii.eqb c NUL); [reflexivity|]. now rewrite IH.
Qed.

Lemma uchar_inj (x y : ascii) : uchar x - uchar y = 0 -> x = y.
Proof.
  unfold uchar. intros H.
  assert (E : N_of_ascii x = N_of_ascii y) by lia.
  rewrite <- (ascii_N_embedding x), <- (ascii_N_embedding y). now rewrite E.
Qed.

Lemma strcmp_text (a : bytes) :
  forall b ta tb,
    c_str a = Some ta -> c_str b = Some tb ->
    exists r, strcmp a b = Some r /\ (r = 0 <-> ta = tb).
Proof.
  induction a as [|x a IH]; intros b ta tb Ha Hb; simpl in Ha; [discriminate|].
  destruct b as [|y b]; simpl in Hb; [discriminate|].
  simpl. destruct (Ascii.eqb_spec x y) as [->|Hxy].
  - destruct (Ascii.eqb y NUL).
    + inversion Ha; inversion Hb; subst. exists 0. tauto.
    + destruct (c_str a) as [ta'|] eqn:Ea; [|discriminate].
      destruct (c_str b) as [tb'|] eqn:Eb; [|discriminate].
      inversion Ha; inversion Hb; subst.
      destruct (IH b ta' tb' eq_refl Eb) as [r [Hr Hiff]].
      exists r. split; [exact Hr|]. rewrite Hiff. split; intros H.
      * now subst.
      * now inversion H.
  - exists (uchar x - uchar y). split; [reflexivity|]. split; intros H.
    + exfalso. apply Hxy. now apply uchar_inj.
    + exfalso. subst tb.
      destruct (Ascii.eqb_spec x NUL) as [Hx|Hx], (Ascii.eqb_spec y NUL) as [Hy|Hy];
        try (destruct (c_str a)); try (destruct (c_str b)); congruence.
Qed.

Lemma c_str_QUIT : c_str QUIT = Some quit_text.
Proof. reflexivity. Qed.

(** A read of [p] followed by the store of the terminator at index
    [length p], when that index is inside the buffer. *)
Lemma read_then_terminate (p buf : bytes) (n : nat) :
  (length p <= n)%nat -> (length p < length buf)%nat ->
  sys_read (Some p) n buf = (Z.of_nat (length p), p ++ skipn (length p) buf) /\
  store (p ++ skipn (length p) buf) (Z.of_nat (length p)) NUL
  = Some (p ++ NUL :: skipn (S (length p)) buf).
Proof.
  intros Hn Hb. unfold sys_read, store.
  rewrite firstn_all2 by exact Hn. split; [reflexivity|].
  assert (Hlen : length (p ++ skipn (length p) buf) = length buf).
  { rewrite length_app, length_skipn. lia. }
  rewrite Hlen, Nat2Z.id.
  replace ((0 <=? Z.of_nat (length p)) && (Z.of_nat (length p) <? Z.of_nat (length buf)))
    with true by (symmetry; apply andb_true_intro; split; [apply Z.leb_le|apply Z.ltb_lt]; lia).
  f_equal.
  rewrite firstn_app, firstn_all, Nat.sub_diag, firstn_O, app_nil_r.
  f_equal. f_equal.
  rewrite skipn_app.
  replace (skipn (S (length p)) p) with (@nil ascii) by (symmetry; apply skipn_all2; lia).
  replace (S (length p) - length p)%nat with 1%nat by lia.
  rewrite skipn_skipn. reflexivity.
Qed.

Lemma service_payload (env : pass_env) (readset : fd_set) (i : nat) (st : state)
      (c : clientSocketStruct) (p : bytes) :
  nth_error (clientSockets st) i = Some c ->
  FD_ISSET (socket c) readset = Some true ->
  rx env (socket c) = Some p ->
  (0 < length p < sizeof_buffer)%nat ->
  length (buffer st) = sizeof_buffer ->
  exists r,
    strcmp (p ++ NUL :: skipn (S (length p)) (buffer st)) QUIT = Some r /\
    (r = 0 <-> until_nul p = quit_text) /\
    service env readset i st
    = Some (if r =? 0
            then erase i (closeSocket c (emit (EvLog (LogQuit (id c))) (logged c p st)))
            else sys_write c ENTERCMD (sizeof ENTERCMD) (logged c p st)).
Proof.
  intros Hc Hset Hrx [Hp0 Hp] Hbuf.
  destruct (strcmp_text (p ++ NUL :: skipn (S (length p)) (buffer st)) QUIT
              (until_nul p) quit_text (c_str_terminated _ _) c_str_QUIT)
    as [r [Hr Hiff]].
  exists r. split; [exact Hr|]. split; [exact Hiff|].
  unfold service. rewrite Hc, Hset, Hrx.
  destruct (read_then_terminate p (buffer st) sizeof_buffer) as [Hread Hstore];
    [lia | lia |].
  rewrite Hread.
  replace (Z.of_nat (length p) <? 0) with false by (symmetry; apply Z.ltb_ge; lia).
  replace (Z.of_nat (length p) =? 0) with false by (symmetry; apply Z.eqb_neq; lia).
  rewrite Hstore, c_str_terminated, Hr.
  now destruct (r =? 0).
Qed.

(* ------------------------------------------------------------------ *)
(** ** What one step does to the state *)

Lemma since_app (st st' : state) (evs : list event) :
  trace st' = trace st ++ evs -> since st st' = evs.
Proof.
  intros H. unfold since. rewrite H, skipn_app, Nat.sub_diag.
  rewrite skipn_all. reflexivity.
Qed.

Lemma accept_client_inv (ret : Z) (st st' : state) :
  accept_client ret st = Some st' ->
  let c := mkClient (count st + 1) ret in
  count st < INT_MAX /\
  count st' = count st + 1 /\
  clientSockets st' = clientSockets st ++ [c] /\
  trace st' = trace st ++ [EvAccept ret; EvWrite c HELLO] /\
  buffer st' = buffer st /\
  nonblock st' = nonblock st /\
  same_endpoint st st'.
Proof.
  unfold accept_client. destruct (Z.ltb_spec (count st) INT_MAX) as [Hlt|]; [|discriminate].
  intros H. inversion H; subst; clear H. simpl.
  rewrite <- app_assoc. repeat split; try reflexivity; exact Hlt.
Qed.

Lemma sys_read_length (wire : option bytes) (buf : bytes) :
  length buf = sizeof_buffer ->
  length (snd (sys_read wire sizeof_buffer buf)) = sizeof_buffer.
Proof.
  intros Hb. destruct wire as [data|]; unfold sys_read; cbn [snd]; [|exact Hb].
  rewrite length_app, length_skipn.
  pose proof (firstn_le_length sizeof_buffer data) as Hle.
  unfold bytes in *. lia.
Qed.

Lemma store_length (arr arr' : bytes) (i : Z) (v : ascii) :
  store arr i v = Some arr' -> length arr' = length arr.
Proof.
  unfold store.
  destruct (0 <=? i) eqn:H0; [|discriminate].
  destruct (Z.ltb_spec i (Z.of_nat (length arr))) as [Hi|]; [|discriminate].
  cbn [andb]. intros H.
  replace arr' with (firstn (Z.to_nat i) arr ++ v :: skipn (S (Z.to_nat i)) arr)
    by congruence.
  apply Z.leb_le in H0.
  rewrite length_app, length_firstn.
  change (length (v :: skipn (S (Z.to_nat i)) arr))
    with (S (length (skipn (S (Z.to_nat i)) arr))).
  rewrite length_skipn. lia.
Qed.

Lemma service_inv (env : pass_env) (readset : fd_set) (i : nat) (st st' : state) :
  service env readset i st = Some st' ->
  exists c ready,
    nth_error (clientSockets st) i = Some c /\
    FD_ISSET (socket c) readset = Some ready /\
    serviced ready i c st st' /\
    count st' = count st /\
    nonblock st' = nonblock st /\
    same_endpoint st st' /\
    (length (buffer st) = sizeof_buffer -> length (buffer st') = sizeof_buffer).
Proof.
  unfold service.
  destruct (nth_error (clientSockets st) i) as [c|]; [|discriminate].
  intros H. exists c.
  destruct (FD_ISSET (socket c) readset) as [ready|]; [|discriminate].
  exists ready. split; [reflexivity|]. split; [reflexivity|].
  destruct ready.
  2:{ inversion H; subst. repeat split; auto. now apply SvIdle. }
  pose proof (sys_read_length (rx env (socket c)) (buffer st)) as Hlen.
  destruct (sys_read (rx env (socket c)) sizeof_buffer (buffer st)) as [nbytes buf].
  simpl in Hlen.
  destruct (Z.ltb_spec nbytes 0) as [Hneg|Hnneg].
  - destruct (perror_arg c) as [msg|]; [|discriminate].
    inversion H; subst; clear H. simpl. repeat split; auto.
    apply SvDropped with (r := nbytes) (d := [LogPerror msg]); simpl; auto.
    + left. split; [exact Hneg|]. now exists msg.
    + now rewrite <- !app_assoc.
  - destruct (Z.eqb_spec nbytes 0) as [Hz|Hnz].
    + inversion H; subst; clear H. simpl. repeat split; auto.
      apply SvDropped with (r := 0) (d := [LogClosed (id c)]); simpl; auto.
      * right. left. now split.
      * now rewrite <- !app_assoc.
    + destruct (store buf nbytes NUL) as [buf'|] eqn:Hst; [|discriminate].
      destruct (c_str buf') as [text|] eqn:Htext; [|discriminate].
      destruct (strcmp buf' QUIT) as [r|] eqn:Hcmp; [|discriminate].
      destruct (strcmp_text buf' QUIT text quit_text Htext c_str_QUIT) as (r' & Hr' & Hiff).
      rewrite Hcmp in Hr'. injection Hr' as <-.
      apply store_length in Hst.
      destruct (Z.eqb_spec r 0) as [Hr0|Hr0];
        inversion H; subst; clear H; simpl; repeat split; auto;
        try (intros Hb; rewrite Hst; auto).
      * apply SvDropped with (r := nbytes) (d := [LogSays (id c) text; LogQuit (id c)]);
          simpl; auto.
        -- right. right. split; [lia|]. destruct Hiff as [Hiff _].
           now rewrite (Hiff eq_refl).
        -- now rewrite <- !app_assoc.
      * apply SvPrompted with (r := nbytes) (text := text); simpl; auto.
        -- lia.
        -- intros E. apply Hr0. now apply Hiff.
        -- now rewrite <- !app_assoc.
Qed.

(* ------------------------------------------------------------------ *)
(** ** Properties kept by every step of the loop *)

Section Preservation.

Variable P : state -> Prop.

Hypothesis P_log : forall st, P st -> P (emit (EvLog LogNoClients) st).
Hypothesis P_mode : forall b st, P st -> P (set_nonblock b st).
Hypothesis P_accept :
  forall ret st st', P st -> accept_client ret st = Some st' -> P st'.
Hypothesis P_service :
  forall env readset i st st', P st -> service env readset i st = Some st' -> P st'.

Lemma scan_preserves (fuel : nat) :
  forall env readset i st st',
    P st -> scan fuel env readset i st = Some st' -> P st'.
Proof.
  induction fuel as [|fuel IH]; intros env readset i st st' HP H; simpl in H.
  - now inversion H; subst.
  - destruct (i <? length (clientSockets st))%nat.
    + destruct (service env readset i st) as [s|] eqn:Hs; [|discriminate].
      eapply IH; [|exact H]. eapply P_service; eauto.
    + now inversion H; subst.
Qed.

Lemma pass_preserves (env : pass_env) (st st' : state) :
  P st -> pass env st = Some st' -> P st'.
Proof.
  intros HP. unfold pass.
  destruct (length (clientSockets st) =? 0)%nat.
  - intros H. eapply P_accept; [|exact H]. now apply P_mode, P_log.
  - destruct (prepareFDReadSet (set_nonblock true st)) as [[maxFD readset0]|];
      [|discriminate].
    destruct (select (maxFD + 1) readset0 env) as [ret readset].
    destruct (ret =? 0).
    + intros H; inversion H; subst. now apply P_mode.
    + destruct (FD_ISSET (serverSocket (set_nonblock true st)) readset)
        as [server_ready|]; [|discriminate].
      destruct (if server_ready
                then accept_client (accept_ret env) (set_nonblock true st)
                else Some (set_nonblock true st)) as [st2|] eqn:H2; [|discriminate].
      intros H. eapply scan_preserves; [|exact H].
      destruct server_ready.
      * eapply P_accept; [|exact H2]. now apply P_mode.
      * inversion H2; subst. now apply P_mode.
Qed.

Lemma run_preserves (envs : list pass_env) :
  forall st st', P st -> run envs st = Some st' -> P st'.
Proof.
  induction envs as [|env envs IH]; intros st st' HP H; simpl in H.
  - now inversion H; subst.
  - destruct (pass env st) as [s|] eqn:Hp; [|discriminate].
    eapply IH; [|exact H]. eapply pass_preserves; eauto.
Qed.

End Preservation.

Lemma grows_refl (st : state) : grows_from st st.
Proof. split; [exists []; now rewrite app_nil_r | now split]. Qed.

Lemma grows_step (st0 st st' : state) (evs : list event) :
  grows_from st0 st -> trace st' = trace st ++ evs -> same_endpoint st st' ->
  grows_from st0 st'.
Proof.
  intros [[evs0 H0] [Hs Hf]] H [Hs' Hf']. split.
  - exists (evs0 ++ evs). now rewrite H, H0, app_assoc.
  - split; congruence.
Qed.

Lemma serviced_grows (ready : bool) (i : nat) (c : clientSocketStruct) (st st' : state) :
  serviced ready i c st st' -> exists evs, trace st' = trace st ++ evs.
Proof.
  intros [_ ->|r d _ _ _ H|r text _ _ _ _ H]; eauto. exists []. now rewrite app_nil_r.
Qed.

Section Growth.

Variable st0 : state.

Lemma grows_log (st : state) :
  grows_from st0 st -> grows_from st0 (emit (EvLog LogNoClients) st).
Proof. intros H. eapply grows_step; [exact H|reflexivity|now split]. Qed.

Lemma grows_mode (b : bool) (st : state) :
  grows_from st0 st -> grows_from st0 (set_nonblock b st).
Proof.
  intros H. eapply grows_step with (evs := []); [exact H| |now split].
  simpl. now rewrite app_nil_r.
Qed.

Lemma grows_accept (ret : Z) (st st' : state) :
  grows_from st0 st -> accept_client ret st = Some st' -> grows_from st0 st'.
Proof.
  intros H Ha. apply accept_client_inv in Ha.
  destruct Ha as (_ & _ & _ & Ht & _ & _ & He). eapply grows_step; eauto.
Qed.

Lemma grows_service (env : pass_env) (readset : fd_set) (i : nat) (st st' : state) :
  grows_from st0 st -> service env readset i st = Some st' -> grows_from st0 st'.
Proof.
  intros H Hv. apply service_inv in Hv.
  destruct Hv as (c & ready & _ & _ & Hsv & _ & _ & He & _).
  destruct (serviced_grows _ _ _ _ _ Hsv) as [evs Ht]. eapply grows_step; eauto.
Qed.

End Growth.

Lemma pass_grows (env : pass_env) (st st' : state) :
  pass env st = Some st' -> grows_from st st'.
Proof.
  apply (pass_preserves (grows_from st));
    [apply grows_log | apply grows_mode | apply grows_accept | apply grows_service
    | apply grows_refl].
Qed.

Lemma run_grows (envs : list pass_env) (st st' : state) :
  run envs st = Some st' -> grows_from st st'.
Proof.
  apply (run_preserves (grows_from st));
    [apply grows_log | apply grows_mode | apply grows_accept | apply grows_service
    | apply grows_refl].
Qed.

(* ------------------------------------------------------------------ *)
(** ** The wire protocol of one client, read off the trace *)

Lemma bytes_eqb_eq (a b : bytes) : bytes_eqb a b = true <-> a = b.
Proof.
  revert b. induction a as [|x a IH]; intros [|y b]; simpl; try (split; congruence).
  rewrite andb_true_iff, Ascii.eqb_eq, IH. split.
  - now intros [-> ->].
  - intros H; inversion H; auto.
Qed.

Lemma protocol_from_app (k : Z) (q : phase) (tr evs : list event) :
  protocol_from k q (tr ++ evs) = protocol_from k (protocol_from k q tr) evs.
Proof. apply fold_left_app. Qed.

Lemma protocol_app (k : Z) (tr evs : list event) :
  protocol k (tr ++ evs) = protocol_from k (protocol k tr) evs.
Proof. apply protocol_from_app. Qed.

Lemma protocol_broken (k : Z) (tr : list event) : protocol_from k Broken tr = Broken.
Proof.
  induction tr as [|e tr IH]; [reflexivity|].
  unfold protocol_from in *. simpl.
  replace (protocol_step k Broken e) with Broken; [exact IH|].
  destruct e; simpl; try reflexivity; now destruct (id c =? k).
Qed.

Lemma protocol_logs (k : Z) (q : phase) (d : list diag) :
  protocol_from k q (map EvLog d) = q.
Proof.
  revert q. induction d as [|x d IH]; intros q; [reflexivity|]. apply IH.
Qed.

Lemma closes_app (k : Z) (tr evs : list event) :
  closes k (tr ++ evs) = (closes k tr + closes k evs)%nat.
Proof. unfold closes. now rewrite filter_app, length_app. Qed.

(** A trace that never leaves the protocol closes a client at most once,
    and that close is what makes the client [Gone]. *)
Lemma closes_protocol_from (k : Z) (tr : list event) :
  forall q,
    protocol_from k q tr <> Broken ->
    (q = Gone -> protocol_from k q tr = Gone /\ closes k tr = 0%nat) /\
    (q <> Gone ->
     (protocol_from k q tr = Gone /\ closes k tr = 1%nat) \/
     (protocol_from k q tr <> Gone /\ closes k tr = 0%nat)).
Proof.
  induction tr as [|e tr IH]; intros q Hnb.
  - simpl. split; [now intros ->|]. intros Hq. now right.
  - change (protocol_from k q (e :: tr))
      with (protocol_from k (protocol_step k q e) tr) in *.
    specialize (IH (protocol_step k q e) Hnb).
    assert (Hb : protocol_step k q e = Broken -> False).
    { intros E. rewrite E, protocol_broken in Hnb. now apply Hnb. }
    unfold closes in *. simpl filter.
    destruct e; simpl in *;
      try (split; [intros ->; now apply IH | intros Hq; now apply IH]);
      destruct (id c =? k) eqn:Ek;
      try (split; [intros ->; now apply IH | intros Hq; now apply IH]);
      destruct q; try (exfalso; now apply Hb); simpl in *;
      try (split; [discriminate|intros _]);
      try (split; [intros _|congruence]);
      try (now apply IH);
      try (left; destruct IH as [IH _]; destruct (IH eq_refl) as [-> ->]; now split).
  all: match goal with
       | H : context [if ?b then Awaiting else Broken] |- _ => destruct b
       end;
       [apply IH; discriminate | exfalso; now apply Hb].
Qed.

Lemma closes_le_1 (k : Z) (tr : list event) :
  protocol k tr <> Broken -> (closes k tr <= 1)%nat.
Proof.
  intros H. destruct (closes_protocol_from k tr Unborn H) as [_ H1].
  destruct H1 as [[_ ->]|[_ ->]]; [discriminate| |]; lia.
Qed.

Lemma closes_gone (k : Z) (tr : list event) :
  protocol k tr = Gone -> closes k tr = 1%nat.
Proof.
  intros H.
  destruct (closes_protocol_from k tr Unborn) as [_ H1]; [unfold protocol in H; congruence|].
  destruct H1 as [[_ ->]|[Hn _]]; [discriminate|reflexivity|].
  exfalso. now apply Hn.
Qed.

Lemma closes_not_gone (k : Z) (tr : list event) :
  protocol k tr <> Broken -> protocol k tr <> Gone -> closes k tr = 0%nat.
Proof.
  intros Hb Hg.
  destruct (closes_protocol_from k tr Unborn Hb) as [_ H1].
  destruct H1 as [[H _]|[_ ->]]; [discriminate| |reflexivity].
  exfalso. now apply Hg.
Qed.

Lemma bytes_eqb_refl (a : bytes) : bytes_eqb a a = true.
Proof. now apply bytes_eqb_eq. Qed.

Lemma protocol_greeted (k : Z) (q : phase) (ret : Z) (c : clientSocketStruct) :
  protocol_from k q [EvAccept ret; EvWrite c HELLO]
  = if id c =? k then match q with Unborn => Awaiting | _ => Broken end else q.
Proof.
  unfold protocol_from. cbn [fold_left protocol_step].
  destruct (id c =? k); [|reflexivity].
  destruct q; try reflexivity.
  change (bytes_eqb HELLO ENTERCMD) with false. now rewrite andb_false_r.
Qed.

Lemma protocol_dropped (k : Z) (q : phase) (c : clientSocketStruct) (r : Z) (d : list diag) :
  protocol_from k q (EvRead c r :: map EvLog d ++ [EvClose c])
  = if id c =? k then match q with Awaiting => Gone | _ => Broken end else q.
Proof.
  change (protocol_from k q (EvRead c r :: map EvLog d ++ [EvClose c]))
    with (protocol_from k (protocol_step k q (EvRead c r)) (map EvLog d ++ [EvClose c])).
  rewrite protocol_from_app, protocol_logs.
  unfold protocol_from. simpl. destruct (id c =? k); [|reflexivity].
  now destruct q.
Qed.

Lemma protocol_prompted (k : Z) (q : phase) (c : clientSocketStruct) (r : Z) (text : bytes) :
  0 < r ->
  protocol_from k q [EvRead c r; EvLog (LogSays (id c) text); EvWrite c ENTERCMD]
  = if id c =? k then match q with Awaiting => Awaiting | _ => Broken end else q.
Proof.
  intros Hr. unfold protocol_from. cbn [fold_left protocol_step].
  destruct (id c =? k); [|reflexivity].
  destruct q; try reflexivity.
  apply Z.ltb_lt in Hr. now rewrite Hr, bytes_eqb_refl.
Qed.

(* ------------------------------------------------------------------ *)
(** ** The registry and the trace agree *)

Lemma registered_true (k : Z) (l : list clientSocketStruct) :
  registered k l = true <-> exists c, In c l /\ id c = k.
Proof.
  unfold registered. rewrite existsb_exists.
  split; intros [c [Hin H]]; exists c; split; auto; now apply Z.eqb_eq.
Qed.

Lemma registered_false (k : Z) (l : list clientSocketStruct) :
  registered k l = false <-> ~ In k (map id l).
Proof.
  rewrite <- not_true_iff_false, registered_true, in_map_iff.
  split; intros H [c Hc]; apply H; exists c; tauto.
Qed.

Lemma vec_erase_split {A : Type} (i : nat) (v : list A) (x : A) :
  nth_error v i = Some x ->
  exists v1 v2, v = v1 ++ x :: v2 /\ length v1 = i /\ vec_erase i v = v1 ++ v2.
Proof.
  intros H. destruct (nth_error_split v i H) as (v1 & v2 & -> & Hlen).
  exists v1, v2. repeat split; auto. unfold vec_erase. subst i.
  rewrite firstn_app, firstn_all, Nat.sub_diag, firstn_O, app_nil_r.
  rewrite skipn_app, skipn_all2 by lia.
  replace (S (length v1) - length v1)%nat with 1%nat by lia. reflexivity.
Qed.

Lemma consistent_initial (srv : Z) (path : string) (buf : bytes) :
  consistent (initial srv path buf).
Proof.
  split; simpl.
  - lia.
  - constructor.
  - intros c [].
  - intros k. unfold expected. simpl.
    destruct (Z.leb_spec 1 k), (Z.leb_spec k 0); simpl; try reflexivity; lia.
Qed.

Lemma expected_cases (st : state) (k : Z) :
  (registered k (clientSockets st) = true /\ expected st k = Awaiting) \/
  (registered k (clientSockets st) = false /\ 1 <= k <= count st /\ expected st k = Gone) \/
  (registered k (clientSockets st) = false /\ ~ (1 <= k <= count st) /\ expected st k = Unborn).
Proof.
  unfold expected. destruct (registered k (clientSockets st)); [now left|right].
  destruct (Z.leb_spec 1 k), (Z.leb_spec k (count st)); simpl;
    [left | right | right | right]; repeat split; auto; lia.
Qed.

Lemma consistent_accept (ret : Z) (st st' : state) :
  consistent st -> accept_client ret st = Some st' -> consistent st'.
Proof.
  intros [Hcnt Hnd Hids Hpr] Ha. apply accept_client_inv in Ha.
  destruct Ha as (_ & Hc & Hl & Ht & _). simpl in Hl, Ht.
  assert (Hfresh : registered (count st + 1) (clientSockets st) = false).
  { apply registered_false. intros Hin. apply in_map_iff in Hin.
    destruct Hin as (c & Hc1 & Hc2). apply Hids in Hc2. lia. }
  split.
  - lia.
  - rewrite Hl, map_app. simpl.
    apply NoDup_app; [exact Hnd | repeat constructor; auto | ].
    intros k Hk [<-|[]]. now apply registered_false in Hfresh.
  - intros c. rewrite Hl, in_app_iff. intros [Hin|[<-|[]]].
    + apply Hids in Hin. lia.
    + simpl. lia.
  - intros k. rewrite Ht, protocol_app, protocol_greeted, Hpr. simpl id.
    unfold expected. rewrite Hl, Hc. unfold registered.
    rewrite existsb_app. fold (registered k (clientSockets st)).
    simpl existsb. rewrite orb_false_r.
    destruct (Z.eqb_spec (count st + 1) k) as [<-|Hne].
    + rewrite orb_true_r. rewrite Hfresh.
      destruct (Z.leb_spec (count st + 1) (count st)); [lia|].
      now rewrite andb_false_r.
    + rewrite orb_false_r. 
      destruct (registered k (clientSockets st)); [reflexivity|].
      destruct (Z.leb_spec 1 k), (Z.leb_spec k (count st)),
               (Z.leb_spec k (count st + 1)); simpl; try reflexivity; lia.
Qed.

Lemma consistent_service (env : pass_env) (readset : fd_set) (i : nat) (st st' : state) :
  consistent st -> service env readset i st = Some st' -> consistent st'.
Proof.
  intros [Hcnt Hnd Hids Hpr] Hs. apply service_inv in Hs.
  destruct Hs as (c & ready & Hc & _ & Hsv & Hcount & _).
  destruct Hsv as [_ ->|r d _ _ Hl Ht|r text _ Hr _ Hl Ht].
  - now split.
  - destruct (vec_erase_split _ _ _ Hc) as (l1 & l2 & El & _ & Ee).
    rewrite Ee in Hl. rewrite El in Hnd, Hids.
    assert (Hnd' : NoDup (map id (l1 ++ l2)) /\ ~ In (id c) (map id (l1 ++ l2))).
    { rewrite map_app in *. simpl in Hnd. split.
      - now apply NoDup_remove_1 in Hnd.
      - now apply NoDup_remove_2 in Hnd. }
    destruct Hnd' as [Hnd1 Hnd2].
    split.
    + lia.
    + now rewrite Hl.
    + intros c'. rewrite Hl, Hcount. intros Hin. apply Hids.
      rewrite in_app_iff in *. simpl. tauto.
    + intros k. rewrite Ht, protocol_app, protocol_dropped, Hpr.
      unfold expected. rewrite Hl, Hcount, El.
      unfold registered. rewrite !existsb_app. simpl existsb.
      destruct (Z.eqb_spec (id c) k) as [<-|Hne].
      * rewrite orb_true_l, orb_true_r.
        apply registered_false in Hnd2. unfold registered in Hnd2.
        rewrite existsb_app in Hnd2. rewrite Hnd2.
        assert (Hin : 1 <= id c <= count st)
          by (apply Hids; rewrite in_app_iff; simpl; tauto).
        destruct (Z.leb_spec 1 (id c)), (Z.leb_spec (id c) (count st));
          simpl; try reflexivity; lia.
      * reflexivity.
  - split.
    + lia.
    + now rewrite Hl.
    + intros c'. rewrite Hl, Hcount. apply Hids.
    + intros k. rewrite Ht, protocol_app, protocol_prompted, Hpr by exact Hr.
      unfold expected. rewrite Hl, Hcount.
      destruct (Z.eqb_spec (id c) k) as [<-|Hne]; [|reflexivity].
      replace (registered (id c) (clientSockets st)) with true; [reflexivity|].
      symmetry. apply registered_true. exists c. split; [|reflexivity].
      eapply nth_error_In; eauto.
Qed.

Lemma consistent_pass (env : pass_env) (st st' : state) :
  consistent st -> pass env st = Some st' -> consistent st'.
Proof.
  apply (pass_preserves consistent).
  - intros s [H1 H2 H3 H4]. split; auto. intros k. simpl.
    change (trace s ++ [EvLog LogNoClients]) with (trace s ++ map EvLog [LogNoClients]).
    rewrite protocol_app, protocol_logs. apply H4.
  - intros b s [H1 H2 H3 H4]. now split.
  - apply consistent_accept.
  - apply consistent_service.
Qed.

Lemma consistent_run (envs : list pass_env) (st st' : state) :
  consistent st -> run envs st = Some st' -> consistent st'.
Proof.
  revert st. induction envs as [|env envs IH]; intros st Hc H; simpl in H.
  - now inversion H; subst.
  - destruct (pass env st) as [s|] eqn:Hp; [|discriminate].
    eapply IH; [|exact H]. eapply consistent_pass; eauto.
Qed.

(* ------------------------------------------------------------------ *)
(** ** Shutdown *)

Lemma close_all_trace (l : list clientSocketStruct) :
  forall st,
    let st' := fold_left (fun s c => closeSocket c s) l st in
    trace st' = trace st ++ map EvClose l /\
    clientSockets st' = clientSockets st /\
    count st' = count st /\
    same_endpoint st st'.
Proof.
  induction l as [|c l IH]; intros st; simpl.
  - rewrite app_nil_r. repeat split; reflexivity.
  - destruct (IH (closeSocket c st)) as (Ht & Hl & Hc & Hs & Hf).
    rewrite Ht, Hl, Hc. simpl. rewrite <- app_assoc.
    repeat split; auto.
Qed.

Lemma cleanup_trace (st : state) :
  trace (cleanup st)
  = trace st ++ EvCloseServer (serverSocket st)
               :: map EvClose (clientSockets st) ++ [EvUnlink (socketFile st)].
Proof.
  unfold cleanup.
  pose proof (close_all_trace (clientSockets st)
              (emit (EvCloseServer (serverSocket st)) st)) as H.
  cbv zeta in H. destruct H as (Ht & _ & _ & _ & Hf).
  cbv zeta. unfold emit at 1. cbn [trace].
  change (clientSockets (emit (EvCloseServer (serverSocket st)) st)) with (clientSockets st).
  rewrite Ht, Hf. simpl. now rewrite <- !app_assoc.
Qed.

Lemma signalHandler_trace (signal : Z) (st : state) :
  trace (signalHandler signal st)
  = trace st ++ EvCloseServer (serverSocket st)
               :: map EvClose (clientSockets st)
               ++ [EvUnlink (socketFile st); EvExit EXIT_SUCCESS].
Proof.
  unfold signalHandler, exit_process, emit at 1. cbn [trace].
  rewrite cleanup_trace, <- app_assoc. cbn [app]. f_equal. f_equal.
  now rewrite <- app_assoc.
Qed.

Lemma protocol_close_all (k : Z) (l : list clientSocketStruct) :
  NoDup (map id l) ->
  forall q,
    protocol_from k q (map EvClose l)
    = if registered k l
      then match q with Awaiting | Got _ => Gone | _ => Broken end
      else q.
Proof.
  induction l as [|c l IH]; intros Hnd q; [reflexivity|].
  simpl in Hnd. inversion Hnd as [|x xs Hnotin Hnd']; subst.
  change (protocol_from k q (map EvClose (c :: l)))
    with (protocol_from k (protocol_step k q (EvClose c)) (map EvClose l)).
  rewrite (IH Hnd'). simpl.
  destruct (Z.eqb_spec (id c) k) as [<-|Hne]; simpl.
  - apply registered_false in Hnotin. now rewrite Hnotin.
  - reflexivity.
Qed.

(** After shutdown every client ever accepted is [Gone], whether it left
    during the run or was still registered. *)
Lemma protocol_after_shutdown (signal : Z) (st : state) (k : Z) :
  consistent st ->
  protocol k (trace (signalHandler signal st))
  = if (1 <=? k) && (k <=? count st) then Gone else Unborn.
Proof.
  intros [Hcnt Hnd Hids Hpr].
  rewrite signalHandler_trace, protocol_app, Hpr.
  change (protocol_from k (expected st k)
            (EvCloseServer (serverSocket st)
               :: map EvClose (clientSockets st)
               ++ [EvUnlink (socketFile st); EvExit EXIT_SUCCESS]))
    with (protocol_from k (expected st k)
            (map EvClose (clientSockets st)
               ++ [EvUnlink (socketFile st); EvExit EXIT_SUCCESS])).
  rewrite protocol_from_app, (protocol_close_all k _ Hnd).
  unfold protocol_from at 1. simpl fold_left.
  unfold expected.
  destruct (registered k (clientSockets st)) eqn:Hreg.
  - apply registered_true in Hreg. destruct Hreg as (c & Hin & <-).
    apply Hids in Hin.
    destruct (Z.leb_spec 1 (id c)), (Z.leb_spec (id c) (count st)); simpl;
      try reflexivity; lia.
  - reflexivity.
Qed.

(* ------------------------------------------------------------------ *)
(** ** Reading the protocol between two calls *)



Lemma protocol_prefix_sound (k : Z) (q : phase) (a b : list event) :
  protocol_from k q (a ++ b) <> Broken -> protocol_from k q a <> Broken.
Proof.
  rewrite protocol_from_app. intros H E. apply H. rewrite E. apply protocol_broken.
Qed.


Lemma left_unborn (k : Z) (tr : list event) :
  forall q, q <> Unborn -> protocol_from k q tr <> Unborn.
Proof.
  induction tr as [|e tr IH]; intros q Hq; [exact Hq|].
  change (protocol_from k q (e :: tr))
    with (protocol_from k (protocol_step k q e) tr).
  apply IH.
  destruct e; simpl; try exact Hq;
    destruct (id c =? k); try exact Hq; destruct q; try discriminate;
    try (now destruct (bytes_eqb data HELLO));
    try (now destruct ((0 <? r) && bytes_eqb data ENTERCMD)).
Qed.

Lemma unborn_no_writes (k : Z) (tr : list event) :
  protocol_from k Unborn tr <> Broken ->
  (writes_to k tr = [] <-> protocol_from k Unborn tr = Unborn).
Proof.
  induction tr as [|e tr IH]; intros Hnb; [now split|].
  change (protocol_from k Unborn (e :: tr))
    with (protocol_from k (protocol_step k Unborn e) tr) in *.
  destruct e as [ret|c d|c r|c|fd|path|code|dg]; simpl in *;
    try (now apply IH);
    destruct (id c =? k); try (now apply IH);
    try (exfalso; apply Hnb; apply protocol_broken).
  split; [discriminate|]. intros E. exfalso.
  destruct (bytes_eqb d HELLO).
  - now apply (left_unborn k tr Awaiting).
  - now apply (left_unborn k tr Broken).
Qed.

Lemma expected_sound (st : state) (k : Z) : expected st k <> Broken.
Proof.
  destruct (expected_cases st k) as [[_ ->]|[(_ & _ & ->)|(_ & _ & ->)]]; discriminate.
Qed.

(** A write on client [k] that keeps the trace inside the protocol is the
    greeting when it is the first write on [k] and the prompt otherwise. *)
Lemma write_in_turn (k : Z) (tr1 tr2 : list event) (c : clientSocketStruct) (d : bytes) :
  id c = k ->
  protocol k (tr1 ++ EvWrite c d :: tr2) <> Broken ->
  (writes_to k tr1 = [] -> d = HELLO) /\
  (writes_to k tr1 <> [] -> d = ENTERCMD).
Proof.
  intros Hk Hnb. unfold protocol in Hnb.
  pose proof (protocol_prefix_sound _ _ _ _ Hnb) as Hnb1.
  pose proof (unborn_no_writes k tr1 Hnb1) as Hiff.
  rewrite protocol_from_app in Hnb.
  change (protocol_from k (protocol_from k Unborn tr1) (EvWrite c d :: tr2))
    with (protocol_from k (protocol_step k (protocol_from k Unborn tr1) (EvWrite c d)) tr2)
    in Hnb.
  simpl in Hnb. apply Z.eqb_eq in Hk. rewrite Hk in Hnb.
  destruct (protocol_from k Unborn tr1) eqn:Eq;
    try (exfalso; apply Hnb; apply protocol_broken).
  - split; [intros _|intros Hw; exfalso; apply Hw; now apply Hiff].
    destruct (bytes_eqb d HELLO) eqn:Ed; [now apply bytes_eqb_eq|].
    exfalso; apply Hnb; apply protocol_broken.
  - split; [intros Hw; apply Hiff in Hw; discriminate|intros _].
    destruct ((0 <? r) && bytes_eqb d ENTERCMD) eqn:Ed.
    + apply andb_true_iff in Ed. now apply bytes_eqb_eq.
    + exfalso; apply Hnb; apply protocol_broken.
Qed.

(* ------------------------------------------------------------------ *)
(** ** The shape of what the loop appends to the trace *)

Lemma progress_refl (st : state) : progress st st.
Proof.
  exists []. rewrite app_nil_r. repeat split; [constructor|]. intros c H. now left.
Qed.

Lemma progress_step (st0 st st' : state) (seg : list event) :
  progress st0 st ->
  trace st' = trace st ++ seg ->
  segment seg ->
  (forall c, In c (clientSockets st) -> In c (clientSockets st') \/ In (EvClose c) seg) ->
  progress st0 st'.
Proof.
  intros (evs & Ht & Hseg & Hreg) Ht' Hs Hreg'.
  exists (evs ++ seg). split; [now rewrite Ht', Ht, app_assoc|].
  split; [now constructor|].
  intros c Hc. destruct (Hreg c Hc) as [Hin|Hin].
  - destruct (Hreg' c Hin) as [H|H]; [now left|right].
    apply in_or_app. now right.
  - right. apply in_or_app. now left.
Qed.

Lemma in_vec_erase {A : Type} (i : nat) (v : list A) (x y : A) :
  nth_error v i = Some x -> In y v -> In y (vec_erase i v) \/ y = x.
Proof.
  intros Hx Hy. destruct (vec_erase_split _ _ _ Hx) as (v1 & v2 & -> & _ & ->).
  rewrite in_app_iff in *. simpl in Hy. intuition.
Qed.

Lemma vec_erase_incl {A : Type} (i : nat) (v : list A) (y : A) :
  In y (vec_erase i v) -> In y v.
Proof.
  unfold vec_erase. rewrite in_app_iff. intros [H|H].
  - rewrite <- (firstn_skipn i v). apply in_or_app. now left.
  - rewrite <- (firstn_skipn (S i) v). apply in_or_app. now right.
Qed.

Section Progress.

Variable st0 : state.

Lemma progress_log (st : state) :
  progress st0 st -> progress st0 (emit (EvLog LogNoClients) st).
Proof.
  intros H. eapply progress_step; [exact H|reflexivity|constructor|].
  intros c Hc. now left.
Qed.

Lemma progress_mode (b : bool) (st : state) :
  progress st0 st -> progress st0 (set_nonblock b st).
Proof. intros H. exact H. Qed.

Lemma progress_accept (ret : Z) (st st' : state) :
  progress st0 st -> accept_client ret st = Some st' -> progress st0 st'.
Proof.
  intros H Ha. apply accept_client_inv in Ha.
  destruct Ha as (_ & _ & Hl & Ht & _).
  eapply progress_step; [exact H|exact Ht|constructor|].
  intros c Hc. left. rewrite Hl. apply in_or_app. now left.
Qed.

Lemma progress_service (env : pass_env) (readset : fd_set) (i : nat) (st st' : state) :
  progress st0 st -> service env readset i st = Some st' -> progress st0 st'.
Proof.
  intros H Hs. apply service_inv in Hs.
  destruct Hs as (c & ready & Hc & _ & Hsv & _).
  destruct Hsv as [_ ->|r d _ Hwhy Hl Ht|r said _ Hr Hsaid Hl Ht].
  - exact H.
  - eapply progress_step; [exact H|exact Ht|now constructor|].
    intros c' Hc'. rewrite Hl.
    destruct (in_vec_erase _ _ _ _ Hc Hc') as [Hin| ->]; [now left|right].
    right. apply in_or_app. right. now left.
  - eapply progress_step; [exact H|exact Ht|now constructor|].
    intros c' Hc'. left. now rewrite Hl.
Qed.


Lemma run_progress_from (envs : list pass_env) (st st' : state) :
  progress st0 st -> run envs st = Some st' -> progress st0 st'.
Proof.
  apply (run_preserves (progress st0));
    [apply progress_log | apply progress_mode | apply progress_accept
    | apply progress_service].
Qed.

End Progress.


Lemma run_progress (envs : list pass_env) (st st' : state) :
  run envs st = Some st' ->
  segments (since st st') /\
  trace st' = trace st ++ since st st' /\
  forall c, In c (clientSockets st) ->
            In c (clientSockets st') \/ In (EvClose c) (since st st').
Proof.
  intros H. destruct (run_progress_from st envs st st' (progress_refl st) H)
    as (evs & Ht & Hseg & Hreg).
  now rewrite (since_app _ _ _ Ht).
Qed.



Lemma in_logs (e : event) (d : list diag) :
  In e (map EvLog d) -> exists x, e = EvLog x.
Proof.
  rewrite in_map_iff. intros (x & <- & _). now exists x.
Qed.



Lemma closes_in (k : Z) (tr : list event) (c : clientSocketStruct) :
  In (EvClose c) tr -> id c = k -> (1 <= closes k tr)%nat.
Proof.
  intros Hin Hk. apply in_split in Hin. destruct Hin as (t1 & t2 & ->).
  rewrite closes_app. unfold closes at 2. simpl.
  apply Z.eqb_eq in Hk. rewrite Hk. simpl. lia.
Qed.

Lemma closed_once (k : Z) (tr : list event) :
  protocol k tr <> Broken -> (1 <= closes k tr)%nat ->
  closes k tr = 1%nat /\ protocol k tr = Gone.
Proof.
  intros Hnb Hge. pose proof (closes_le_1 k tr Hnb) as Hle.
  split; [lia|].
  destruct (protocol k tr) eqn:E; try reflexivity;
    try (assert (H0 : closes k tr = 0%nat)
           by (apply closes_not_gone; rewrite E; discriminate); lia).
  now contradiction Hnb.
Qed.

Lemma gone_not_registered (st : state) (c : clientSocketStruct) :
  expected st (id c) = Gone -> ~ In c (clientSockets st).
Proof.
  intros E Hin.
  assert (Hreg : registered (id c) (clientSockets st) = true)
    by (apply registered_true; now exists c).
  unfold expected in E. rewrite Hreg in E. discriminate.
Qed.

Lemma reachable_consistent (srv : Z) (path : string) (buf : bytes)
      (envs : list pass_env) (st : state) :
  run envs (initial srv path buf) = Some st -> consistent st.
Proof. apply consistent_run, consistent_initial. Qed.




(* ------------------------------------------------------------------ *)
(** ** Shutdown order *)






(* ------------------------------------------------------------------ *)
(** ** The fixed payloads *)

(** C10.  Every write the server makes in any run carries one of the two
    fixed payloads with its terminating zero byte: the first write on a
    Session is the greeting, the six bytes of "HELLO" and a zero byte; every
    later write on it is the prompt, the nine bytes of "ENTERCMD" and a zero
    byte. *)
Theorem fixed_payloads_carry_nul
        (srv : Z) (path : string) (buf : bytes) (envs : list pass_env) (st : state)
        (tr1 tr2 : list event) (c : clientSocketStruct) (d : bytes) :
  run envs (initial srv path buf) = Some st ->
  trace st = tr1 ++ EvWrite c d :: tr2 ->
  (writes_to (id c) tr1 = [] ->
   d = list_ascii_of_string "HELLO" ++ [NUL] /\ length d = 6%nat) /\
  (writes_to (id c) tr1 <> [] ->
   d = list_ascii_of_string "ENTERCMD" ++ [NUL] /\ length d = 9%nat).
Proof.
  intros Hst Htr.
  pose proof (reachable_consistent _ _ _ _ _ Hst) as Cst.
  destruct (write_in_turn (id c) tr1 tr2 c d eq_refl) as [Hfirst Hlater].
  - rewrite <- Htr, (in_protocol _ Cst). apply expected_sound.
  - split; intros Hw.
    + rewrite (Hfirst Hw). now split.
    + rewrite (Hlater Hw). now split.
Qed.

Lemma fixed_payloads_witness :
  (writes_to 1 [EvLog LogNoClients; EvAccept 4] = [] ->
   HELLO = list_ascii_of_string "HELLO" ++ [NUL] /\ length HELLO = 6%nat) /\
  (writes_to 1 [EvLog LogNoClients; EvAccept 4] <> [] ->
   HELLO = list_ascii_of_string "ENTERCMD" ++ [NUL] /\ length HELLO = 9%nat).
Proof.
  apply (fixed_payloads_carry_nul
           3 "mu.sock" stack_bytes [env_first; env_second]
           (after [env_first; env_second])
           [EvLog LogNoClients; EvAccept 4]
           [EvAccept 5; EvWrite client2 HELLO] client1 HELLO).
  - vm_compute. reflexivity.
  - vm_compute. reflexivity.
Defined.

(* ------------------------------------------------------------------ *)
(** ** Erasing while scanning *)

Lemma scan_invariant_from (P : state -> Prop) (env : pass_env) (readset : fd_set) (j : nat) :
  (forall i st st', (j <= i)%nat -> P st -> service env readset i st = Some st' -> P st') ->
  forall fuel i st st',
    (j <= i)%nat -> P st -> scan fuel env readset i st = Some st' -> P st'.
Proof.
  intros Hstep. induction fuel as [|fuel IH]; intros i st st' Hj HP H; simpl in H.
  - now inversion H; subst.
  - destruct (i <? length (clientSockets st))%nat.
    + destruct (service env readset i st) as [s|] eqn:Hs; [|discriminate].
      apply (IH (S i) s st'); [lia| |exact H]. eapply Hstep; eauto.
    + now inversion H; subst.
Qed.

Lemma nth_error_vec_erase_before {A : Type} (i j : nat) (v : list A) :
  (i < j)%nat -> nth_error (vec_erase j v) i = nth_error v i.
Proof.
  intros Hij. unfold vec_erase.
  destruct (Nat.ltb_spec i (length v)) as [Hlt|Hge].
  - rewrite nth_error_app1 by (rewrite length_firstn; lia).
    rewrite nth_error_firstn.
    destruct (Nat.ltb_spec i j); [reflexivity|lia].
  - assert (Hn : nth_error v i = None) by now apply nth_error_None.
    rewrite Hn. apply nth_error_None.
    rewrite length_app, length_firstn, length_skipn. lia.
Qed.

Lemma nth_error_vec_erase_at {A : Type} (i : nat) (v : list A) :
  (i < length v)%nat -> nth_error (vec_erase i v) i = nth_error v (S i).
Proof.
  intros Hlt. unfold vec_erase.
  rewrite nth_error_app2 by (rewrite length_firstn; lia).
  rewrite length_firstn, nth_error_skipn. f_equal. lia.
Qed.

Lemma NoDup_vec_erase {A : Type} (i : nat) (v : list A) :
  NoDup v -> NoDup (vec_erase i v).
Proof.
  intros Hnd. destruct (nth_error v i) as [x|] eqn:Hx.
  - destruct (vec_erase_split _ _ _ Hx) as (v1 & v2 & -> & _ & ->).
    now apply NoDup_remove_1 in Hnd.
  - apply nth_error_None in Hx. unfold vec_erase.
    rewrite firstn_all2 by exact Hx. rewrite skipn_all2 by lia.
    now rewrite app_nil_r.
Qed.

(** The slot behind an erased client: the client that moves into the
    erased index is not examined by the rest of the scan. *)
Lemma erased_slot_is_skipped (env : pass_env) (readset : fd_set) (fuel i : nat)
      (st st1 st2 : state) (c2 : clientSocketStruct) :
  NoDup (clientSockets st) ->
  nth_error (clientSockets st) (S i) = Some c2 ->
  clientSockets st1 = vec_erase i (clientSockets st) ->
  scan fuel env readset (S i) st1 = Some st2 ->
  nth_error (clientSockets st2) i = Some c2 /\ Forall (untouched c2) (since st1 st2).
Proof.
  intros Hnd Hc2 Hl Hscan.
  assert (Hlen : (S i < length (clientSockets st))%nat)
    by (apply nth_error_Some; congruence).
  pose (P := fun s => NoDup (clientSockets s) /\
                      nth_error (clientSockets s) i = Some c2 /\
                      exists evs, trace s = trace st1 ++ evs /\ Forall (untouched c2) evs).
  assert (HP : P st2).
  { apply (scan_invariant_from P env readset (S i)) with (fuel := fuel) (i := S i) (st := st1);
      [|lia| |exact Hscan].
    - clear Hscan. intros i' s s' Hi' (Hnd' & Hslot & evs & Ht & Hall) Hs.
      apply service_inv in Hs. destruct Hs as (c' & ready & Hc' & _ & Hsv & _).
      assert (Hne : c' <> c2).
      { intros ->. rewrite <- Hslot in Hc'.
        apply (proj1 (NoDup_nth_error _) Hnd') in Hc'; [lia|].
        apply nth_error_Some. congruence. }
      destruct Hsv as [_ ->|r d _ _ Hl' Ht'|r said _ _ _ Hl' Ht'].
      + repeat split; auto. now exists evs.
      + repeat split.
        * rewrite Hl'. now apply NoDup_vec_erase.
        * rewrite Hl', nth_error_vec_erase_before by lia. exact Hslot.
        * exists (evs ++ EvRead c' r :: map EvLog d ++ [EvClose c']).
          split; [now rewrite Ht', Ht, app_assoc|].
          apply Forall_app. split; [exact Hall|].
          constructor; [exact Hne|]. apply Forall_app. split.
          -- apply Forall_forall. intros e He. apply in_logs in He.
             destruct He as [x ->]. exact I.
          -- now repeat constructor.
      + repeat split.
        * now rewrite Hl'.
        * now rewrite Hl'.
        * exists (evs ++ [EvRead c' r; EvLog (LogSays (id c') said); EvWrite c' ENTERCMD]).
          split; [now rewrite Ht', Ht, app_assoc|].
          apply Forall_app. split; [exact Hall|]. now repeat constructor.
    - repeat split.
      + rewrite Hl. now apply NoDup_vec_erase.
      + rewrite Hl, nth_error_vec_erase_at by lia. exact Hc2.
      + exists []. split; [now rewrite app_nil_r|constructor]. }
  destruct HP as (_ & Hslot & evs & Ht & Hall).
  split; [exact Hslot|]. now rewrite (since_app _ _ _ Ht).
Qed.

(** C1, on the code.  Two Sessions are registered and both are ready.  When
    the first one stays (it says "hey") both are serviced in the pass.  When
    the first one quits it is erased, the second moves to index 0 while the
    index advances to 1, and the pass ends without any read on the second
    Session: it is still registered and was not serviced. *)
Theorem erase_skips_next_ready_session :
  let st := after [env_first; env_second] in
  clientSockets st = [client1; client2] /\
  (exists st',
      pass (env_both (Some (text "hey")) (Some (text "hi"))) st = Some st' /\
      clientSockets st' = [client1; client2] /\
      reads_of 1 (since st st') = [3] /\ reads_of 2 (since st st') = [2]) /\
  (exists st',
      pass (env_both (Some (text "quit")) (Some (text "hi"))) st = Some st' /\
      clientSockets st' = [client2] /\
      reads_of 1 (since st st') = [4] /\ reads_of 2 (since st st') = []).
Proof.
  cbv zeta. split; [reflexivity|]. split; eexists; (split; [vm_compute; reflexivity|]).
  - repeat split.
  - repeat split.
Qed.

(* ------------------------------------------------------------------ *)
(** ** The read buffer *)

(** C2, on the code.  A payload that fills the buffer: [read] returns 100
    and line 200 stores the terminator at index 100 of a 100-byte array.
    One byte less and every access stays inside. *)
Theorem full_buffer_terminator_out_of_bounds :
  let st := after [env_first] in
  let full := mkEnv (-1) (fd_mask [4]) false (fun _ => Some (repeat "a"%char 100)) in
  let short := mkEnv (-1) (fd_mask [4]) false (fun _ => Some (repeat "a"%char 99)) in
  length (buffer st) = 100%nat /\
  sys_read (rx full 4) sizeof_buffer (buffer st) = (100, repeat "a"%char 100) /\
  store (repeat "a"%char 100) 100 NUL = None /\
  service full (fd_mask [4]) 0 st = None /\
  pass full st = None /\
  (exists st', pass short st = Some st' /\ reads_of 1 (since st st') = [99]).
Proof.
  cbv zeta. repeat split; try (vm_compute; reflexivity).
  eexists. split; vm_compute; reflexivity.
Qed.

(* ------------------------------------------------------------------ *)
(** ** The terminator *)

(** C4, as the code has it.  For a payload of 1 to 99 bytes the Session
    is terminated through the client-quit path exactly when the bytes of
    the payload before its first zero byte (all of them when it has none)
    are "quit"; any other such payload is answered by the prompt and the
    Session stays. *)
Theorem quit_decided_by_text_before_first_nul
        (env : pass_env) (readset : fd_set) (i : nat) (st : state)
        (c : clientSocketStruct) (p : bytes) :
  nth_error (clientSockets st) i = Some c ->
  FD_ISSET (socket c) readset = Some true ->
  rx env (socket c) = Some p ->
  (0 < length p < sizeof_buffer)%nat ->
  length (buffer st) = sizeof_buffer ->
  exists st',
    service env readset i st = Some st' /\
    (In (EvLog (LogQuit (id c))) (since st st') <-> until_nul p = quit_text) /\
    (until_nul p = quit_text ->
     since st st' = quit_path c (length p) /\
     clientSockets st' = vec_erase i (clientSockets st)) /\
    (until_nul p <> quit_text ->
     since st st' = [EvRead c (Z.of_nat (length p));
                     EvLog (LogSays (id c) (until_nul p));
                     EvWrite c ENTERCMD] /\
     clientSockets st' = clientSockets st).
Proof.
  intros Hc Hset Hrx Hlen Hbuf.
  destruct (service_payload env readset i st c p Hc Hset Hrx Hlen Hbuf)
    as (r & _ & Hiff & Hs).
  destruct (Z.eqb_spec r 0) as [Hr|Hr].
  - assert (Hq : until_nul p = quit_text) by now apply Hiff.
    eexists. split; [exact Hs|].
    assert (Hev : since st (erase i (closeSocket c (emit (EvLog (LogQuit (id c)))
                                                      (logged c p st))))
                  = quit_path c (length p)).
    { apply since_app. simpl. rewrite Hq. now rewrite <- !app_assoc. }
    rewrite Hev. split; [|split].
    + split; intros _; [exact Hq|]. simpl. right. right. now left.
    + intros _. now split.
    + intros Hn. now contradiction Hn.
  - assert (Hq : until_nul p <> quit_text) by (intros E; now apply Hr, Hiff).
    eexists. split; [exact Hs|].
    assert (Hev : since st (sys_write c ENTERCMD (sizeof ENTERCMD) (logged c p st))
                  = [EvRead c (Z.of_nat (length p));
                     EvLog (LogSays (id c) (until_nul p));
                     EvWrite c ENTERCMD]).
    { apply since_app. simpl. now rewrite <- !app_assoc. }
    rewrite Hev. split; [|split].
    + split; [|intros E; now contradiction Hq].
      intros [E|[E|[E|[]]]]; discriminate.
    + intros E. now contradiction Hq.
    + intros _. now split.
Qed.

Lemma quit_decided_witness :
  exists st',
    service (env_both (Some (text "quit")) None) (fd_mask [4]) 0 (after [env_first])
    = Some st' /\
    since (after [env_first]) st' = quit_path client1 4 /\
    clientSockets st' = [].
Proof.
  destruct (quit_decided_by_text_before_first_nul
              (env_both (Some (text "quit")) None) (fd_mask [4]) 0
              (after [env_first]) client1 (text "quit"))
    as (st' & Hs & _ & Hq & _).
  - reflexivity.
  - reflexivity.
  - reflexivity.
  - simpl. unfold sizeof_buffer. lia.
  - reflexivity.
  - exists st'. destruct (Hq eq_refl) as [H1 H2]. repeat split; assumption.
Defined.

(** A five-byte payload, "quit" and a zero byte, is not the four-byte
    terminator, and neither is "quit", a zero byte and more text; either
    one takes the Session through the client-quit path. *)
Lemma quit_with_trailing_bytes_terminates :
  text "quit" ++ [NUL] <> text "quit" /\
  (exists st',
      pass (env_both (Some (text "quit" ++ [NUL])) None) (after [env_first]) = Some st' /\
      In (EvLog (LogQuit 1)) (since (after [env_first]) st') /\
      clientSockets st' = []) /\
  text "quit" ++ NUL :: text "later" <> text "quit" /\
  (exists st',
      pass (env_both (Some (text "quit" ++ NUL :: text "later")) None) (after [env_first])
      = Some st' /\
      In (EvLog (LogQuit 1)) (since (after [env_first]) st') /\
      clientSockets st' = []).
Proof.
  split; [discriminate|]. split.
  - eexists. split; [vm_compute; reflexivity|]. split; [|reflexivity].
    vm_compute. tauto.
  - split; [discriminate|].
    eexists. split; [vm_compute; reflexivity|]. split; [|reflexivity].
    vm_compute. tauto.
Qed.

(* ------------------------------------------------------------------ *)
(** ** What the poll examines *)

Lemma testbit_single (fd m : Z) :
  0 <= fd -> Z.testbit (Z.shiftl 1 fd) m = (m =? fd).
Proof.
  intros Hfd. destruct (Z.ltb_spec m 0) as [Hm|Hm].
  - rewrite Z.testbit_neg_r by exact Hm. symmetry. apply Z.eqb_neq. lia.
  - rewrite Z.shiftl_spec by exact Hm.
    destruct (Z.eqb_spec m fd) as [->|Hne].
    + now rewrite Z.sub_diag.
    + destruct (Z.ltb_spec m fd) as [Hlt|Hge].
      * apply Z.testbit_neg_r. lia.
      * replace (m - fd) with (Z.succ (m - fd - 1)) by lia.
        change 1 with (2 * 0 + 1). rewrite Z.testbit_odd_succ by lia.
        apply Z.testbit_0_l.
Qed.

Lemma FD_SET_spec (fd : Z) (s s' : fd_set) :
  FD_SET fd s = Some s' ->
  fd_in_range fd = true /\
  forall m, Z.testbit s' m = Z.testbit s m || (m =? fd).
Proof.
  unfold FD_SET. destruct (fd_in_range fd) eqn:Hr; [|discriminate].
  intros H. injection H as <-. split; [reflexivity|]. intros m.
  rewrite Z.lor_spec, testbit_single; [reflexivity|].
  unfold fd_in_range in Hr. apply andb_true_iff in Hr. destruct Hr as [Hr _].
  now apply Z.leb_le.
Qed.

Lemma add_clients_spec (l : list clientSocketStruct) :
  forall maxFD readset maxFD' readset',
    add_clients l maxFD readset = Some (maxFD', readset') ->
    (forall m, Z.testbit readset' m = true <->
               Z.testbit readset m = true \/ In m (map socket l)) /\
    (forall c, In c l -> fd_in_range (socket c) = true) /\
    maxFD' = fold_left Z.max (map socket l) maxFD.
Proof.
  induction l as [|c l IH]; intros maxFD readset maxFD' readset' H; simpl in H.
  - injection H as <- <-. simpl. repeat split; tauto.
  - destruct (FD_SET (socket c) readset) as [rs1|] eqn:Hset; [|discriminate].
    apply FD_SET_spec in Hset. destruct Hset as [Hrange Hbits].
    apply IH in H. destruct H as (Hb & Hr & Hm).
    split; [|split].
    + intros m. rewrite Hb, Hbits, orb_true_iff, Z.eqb_eq. simpl.
      intuition (subst; auto).
    + intros c' [<-|Hin]; auto.
    + rewrite Hm. simpl. f_equal.
      destruct (Z.gtb_spec (socket c) maxFD); lia.
Qed.

Lemma prepareFDReadSet_spec (st : state) (maxFD : Z) (readset : fd_set) :
  prepareFDReadSet st = Some (maxFD, readset) ->
  (forall m, Z.testbit readset m = true <-> In m (candidates st)) /\
  (forall m, In m (candidates st) -> fd_in_range m = true) /\
  maxFD = fold_left Z.max (map socket (clientSockets st)) 0.
Proof.
  unfold prepareFDReadSet.
  destruct (FD_SET (serverSocket st) FD_ZERO) as [rs0|] eqn:Hset; [|discriminate].
  apply FD_SET_spec in Hset. destruct Hset as [Hrange Hbits].
  intros H. apply add_clients_spec in H. destruct H as (Hb & Hr & Hm).
  split; [|split]; [| |exact Hm].
  - intros m. rewrite Hb, Hbits. unfold FD_ZERO. rewrite Z.testbit_0_l. simpl.
    rewrite Z.eqb_eq. intuition.
  - intros m [<-|Hin]; [exact Hrange|].
    apply in_map_iff in Hin. destruct Hin as (c & <- & Hc). now apply Hr.
Qed.

(** A successful [select] reports a candidate exactly when it is readable
    and not above [maxFD]. *)
Lemma select_spec (st : state) (env : pass_env) (maxFD : Z) (readset : fd_set) (m : Z) :
  prepareFDReadSet st = Some (maxFD, readset) ->
  select_fails env = false ->
  (Z.testbit (snd (select (maxFD + 1) readset env)) m = true <->
   In m (candidates st) /\ m <= maxFD /\ Z.testbit (readable env) m = true).
Proof.
  intros Hprep Hok. destruct (prepareFDReadSet_spec _ _ _ Hprep) as (Hb & Hr & Hm).
  unfold select. rewrite Hok. cbn [snd].
  rewrite !Z.land_spec, !andb_true_iff, Hb.
  assert (H0 : 0 <= maxFD).
  { rewrite Hm. clear. generalize (map socket (clientSockets st)).
    assert (G : forall l a, 0 <= a -> 0 <= fold_left Z.max l a)
      by (induction l as [|x l IH]; intros a Ha; simpl; [exact Ha|apply IH; lia]).
    intros l. apply G. lia. }
  split.
  - intros [[Hin Hones] Hread]. repeat split; auto.
    destruct (Z.leb_spec m maxFD) as [|Hgt]; [assumption|].
    rewrite Z.ones_spec_high in Hones by lia. discriminate.
  - intros (Hin & Hle & Hread). repeat split; auto.
    apply Hr in Hin. unfold fd_in_range in Hin. apply andb_true_iff in Hin.
    destruct Hin as [Hin _]. apply Z.leb_le in Hin.
    apply Z.ones_spec_low. lia.
Qed.


(* ------------------------------------------------------------------ *)
(** ** A failing accept *)

(** C5, on the code.  [accept] returns -1.  With the Registry empty the
    process does not stop: the value is numbered, greeted and registered as
    a Session, no shutdown event occurs, and the next pass hands descriptor
    -1 to [FD_SET].  With a Session registered and the endpoint reported
    ready the same Session is appended, and the scan of that very pass hands
    descriptor -1 to [FD_ISSET]. *)
Theorem failed_accept_registers_a_session :
  (exists st',
      pass (mkEnv (-1) 0 false (fun _ => None)) boot = Some st' /\
      clientSockets st' = [mkClient 1 (-1)] /\
      since boot st' = [EvLog LogNoClients; EvAccept (-1); EvWrite (mkClient 1 (-1)) HELLO] /\
      prepareFDReadSet st' = None /\
      forall env, pass env st' = None) /\
  (exists st1,
      accept_client (-1) (set_nonblock true (after [env_first])) = Some st1 /\
      clientSockets st1 = [client1; mkClient 2 (-1)] /\
      FD_ISSET (-1) (fd_mask [3]) = None /\
      pass (mkEnv (-1) (fd_mask [3]) false (fun _ => None)) (after [env_first]) = None).
Proof.
  split; eexists; (split; [vm_compute; reflexivity|]).
  - repeat split; try (vm_compute; reflexivity).
  - repeat split; try (vm_compute; reflexivity).
Qed.

(* ------------------------------------------------------------------ *)
(** ** The scan touches ready clients only *)

Lemma scan_invariant (P : state -> Prop) (env : pass_env) (readset : fd_set) :
  (forall i st st', P st -> service env readset i st = Some st' -> P st') ->
  forall fuel i st st',
    P st -> scan fuel env readset i st = Some st' -> P st'.
Proof.
  intros Hstep. induction fuel as [|fuel IH]; intros i st st' HP H; simpl in H.
  - now inversion H; subst.
  - destruct (i <? length (clientSockets st))%nat.
    + destruct (service env readset i st) as [s|] eqn:Hs; [|discriminate].
      eapply IH; [|exact H]. eapply Hstep; eauto.
    + now inversion H; subst.
Qed.

Lemma scan_touches_ready_only (env : pass_env) (readset : fd_set)
      (fuel i : nat) (st st' : state) :
  scan fuel env readset i st = Some st' -> scanned readset st st'.
Proof.
  apply (scan_invariant (scanned readset st)).
  - clear. intros i s s' [(evs & Ht & Hall) Hkeep] Hs.
    apply service_inv in Hs. destruct Hs as (c & ready & Hc & Hset & Hsv & _).
    destruct Hsv as [_ ->|r d -> _ Hl Ht'|r said -> _ _ Hl Ht'].
    + split; [now exists evs|exact Hkeep].
    + split.
      * exists (evs ++ EvRead c r :: map EvLog d ++ [EvClose c]).
        split; [now rewrite Ht', Ht, app_assoc|].
        apply Forall_app. split; [exact Hall|].
        constructor; [exact Hset|]. apply Forall_app. split.
        -- apply Forall_forall. intros e He. apply in_logs in He.
           destruct He as [x ->]. exact I.
        -- now repeat constructor.
      * intros c' Hc' Hnr. rewrite Hl.
        destruct (in_vec_erase _ _ _ _ Hc (Hkeep c' Hc' Hnr)) as [Hin| ->];
          [exact Hin|now contradiction Hnr].
    + split.
      * exists (evs ++ [EvRead c r; EvLog (LogSays (id c) said); EvWrite c ENTERCMD]).
        split; [now rewrite Ht', Ht, app_assoc|].
        apply Forall_app. split; [exact Hall|]. now repeat constructor.
      * intros c' Hc' Hnr. rewrite Hl. now apply Hkeep.
  - split; [exists []; now rewrite app_nil_r|auto].
Qed.


Lemma FD_ISSET_true (fd : Z) (s : fd_set) :
  FD_ISSET fd s = Some true -> Z.testbit s fd = true.
Proof.
  unfold FD_ISSET. destruct (fd_in_range fd); [|discriminate]. congruence.
Qed.


(* ------------------------------------------------------------------ *)
(** ** Acceptance *)





(* ------------------------------------------------------------------ *)
(** ** Prompts *)

Lemma run_buffer_length (envs : list pass_env) (st st' : state) :
  length (buffer st) = sizeof_buffer ->
  run envs st = Some st' ->
  length (buffer st') = sizeof_buffer.
Proof.
  apply (run_preserves (fun s => length (buffer s) = sizeof_buffer)).
  - intros s H. exact H.
  - intros b s H. exact H.
  - intros ret s s' H Ha. apply accept_client_inv in Ha.
    destruct Ha as (_ & _ & _ & _ & Hb & _). now rewrite Hb.
  - intros env rs i s s' H Hs. apply service_inv in Hs.
    destruct Hs as (c & ready & _ & _ & _ & _ & _ & _ & Hb). now apply Hb.
Qed.




(* ------------------------------------------------------------------ *)
(** ** The scan loop ends by its own condition *)

Lemma service_length (env : pass_env) (readset : fd_set) (i : nat) (st st' : state) :
  service env readset i st = Some st' ->
  (length (clientSockets st') <= length (clientSockets st))%nat.
Proof.
  intros Hs. apply service_inv in Hs.
  destruct Hs as (c & ready & Hc & _ & Hsv & _).
  destruct Hsv as [_ ->|r d _ _ Hl _|r said _ _ _ Hl _].
  - lia.
  - destruct (vec_erase_split _ _ _ Hc) as (v1 & v2 & Ev & _ & Ee).
    rewrite Hl, Ee, Ev, !length_app. simpl. lia.
  - rewrite Hl. lia.
Qed.

(** The index advances at every turn, so the number of clients left
    behind it is all the fuel the loop can use: more changes nothing. *)
Lemma scan_fuel_enough (env : pass_env) (readset : fd_set) (fuel1 : nat) :
  forall fuel2 i st,
    (length (clientSockets st) - i <= fuel1)%nat ->
    (length (clientSockets st) - i <= fuel2)%nat ->
    scan fuel1 env readset i st = scan fuel2 env readset i st.
Proof.
  induction fuel1 as [|fuel1 IH]; intros [|fuel2] i st H1 H2; simpl;
    try reflexivity;
    destruct (Nat.ltb_spec i (length (clientSockets st))) as [Hlt|Hge];
    try reflexivity; try lia.
  destruct (service env readset i st) as [st'|] eqn:Hs; [|reflexivity].
  apply service_length in Hs. apply IH; lia.
Qed.

(** Once a client has been closed no further call is made on it. *)
Lemma no_call_after_close (st : state) (t1 t2 : list event) (c : clientSocketStruct) :
  consistent st ->
  trace st = t1 ++ EvClose c :: t2 ->
  reads_of (id c) t2 = [] /\ writes_to (id c) t2 = [] /\ closes (id c) t2 = 0%nat.
Proof.
  intros Cst Htr.
  assert (Hnb : protocol (id c) (trace st) <> Broken)
    by (rewrite (in_protocol _ Cst); apply expected_sound).
  rewrite Htr in Hnb. unfold protocol in Hnb. rewrite protocol_from_app in Hnb.
  change (protocol_from (id c) (protocol_from (id c) Unborn t1) (EvClose c :: t2))
    with (protocol_from (id c)
            (protocol_step (id c) (protocol_from (id c) Unborn t1) (EvClose c)) t2)
    in Hnb.
  simpl in Hnb. rewrite Z.eqb_refl in Hnb.
  assert (Hgone : protocol_from (id c) Gone t2 <> Broken).
  { destruct (protocol_from (id c) Unborn t1); auto;
      exfalso; apply Hnb; apply protocol_broken. }
  clear Hnb Htr. induction t2 as [|e t2 IH]; [now repeat split|].
  change (protocol_from (id c) Gone (e :: t2))
    with (protocol_from (id c) (protocol_step (id c) Gone e) t2) in Hgone.
  unfold closes in *.
  destruct e as [ret|c' d|c' r|c'|fd|path|code|dg]; simpl in *;
    try (now apply IH);
    destruct (id c' =? id c); try (now apply IH);
    exfalso; apply Hgone; apply protocol_broken.
Qed.

(* ------------------------------------------------------------------ *)
(** ** When a pass is defined *)


Lemma add_clients_defined (l : list clientSocketStruct) :
  forall maxFD readset,
    (forall c, In c l -> fd_in_range (socket c) = true) ->
    exists r, add_clients l maxFD readset = Some r.
Proof.
  induction l as [|c l IH]; intros maxFD readset Hr; simpl; [eauto|].
  unfold FD_SET. rewrite (Hr c) by now left.
  apply IH. intros c' Hc'. apply Hr. now right.
Qed.

Lemma prepareFDReadSet_defined (st : state) :
  sockets_in_range st -> exists r, prepareFDReadSet st = Some r.
Proof.
  intros [Hs Hc]. unfold prepareFDReadSet, FD_SET. rewrite Hs.
  now apply add_clients_defined.
Qed.





(* ------------------------------------------------------------------ *)
(** ** Numbering of the clients *)

Lemma ascending_snoc (l : list Z) (x : Z) :
  ascending l -> Forall (fun y => y < x) l -> ascending (l ++ [x]).
Proof.
  induction l as [|a l IH]; simpl; intros Hasc Hall.
  - split; [constructor|exact I].
  - destruct Hasc as [Ha Hl]. inversion Hall as [|? ? Hax Hlx]; subst. split.
    + apply Forall_app. split; [exact Ha|]. now repeat constructor.
    + now apply IH.
Qed.

Lemma ascending_remove (l1 l2 : list Z) (x : Z) :
  ascending (l1 ++ x :: l2) -> ascending (l1 ++ l2).
Proof.
  induction l1 as [|a l1 IH]; simpl.
  - now intros [_ H].
  - intros [Ha Hl]. split; [|now apply IH].
    apply Forall_app in Ha. destruct Ha as [H1 H2].
    apply Forall_app. split; [exact H1|]. now inversion H2.
Qed.

Lemma in_trace_snoc (tr evs : list event) (P : event -> Prop) :
  (forall e, In e tr -> P e) -> (forall e, In e evs -> P e) ->
  forall e, In e (tr ++ evs) -> P e.
Proof. intros H1 H2 e He. apply in_app_or in He. destruct He; auto. Qed.

Lemma numbered_accept (ret : Z) (st st' : state) :
  numbered st -> accept_client ret st = Some st' -> numbered st'.
Proof.
  intros (Hcnt & Hasc & Hreg & Htr) Ha. apply accept_client_inv in Ha.
  destruct Ha as (_ & Hc & Hl & Ht & _). simpl in Hl, Ht.
  unfold numbered. rewrite Hc, Hl, Ht. split; [lia|]. split; [|split].
  - rewrite map_app. simpl. apply ascending_snoc; [exact Hasc|].
    apply Forall_forall. intros k Hk. apply in_map_iff in Hk.
    destruct Hk as (c & <- & Hin). apply Hreg in Hin. lia.
  - intros c Hin. apply in_app_or in Hin. destruct Hin as [Hin|[<-|[]]].
    + apply Hreg in Hin. lia.
    + simpl. lia.
  - intros e c He Hc'. apply in_app_or in He. destruct He as [He|He].
    + pose proof (Htr e c He Hc'). lia.
    + simpl in He. destruct He as [<-|[<-|[]]]; simpl in Hc'; [discriminate|].
      injection Hc' as <-. simpl. lia.
Qed.

Lemma numbered_service (env : pass_env) (readset : fd_set) (i : nat) (st st' : state) :
  numbered st -> service env readset i st = Some st' -> numbered st'.
Proof.
  intros (Hcnt & Hasc & Hreg & Htr) Hs. apply service_inv in Hs.
  destruct Hs as (c & ready & Hc & _ & Hsv & Hcount & _).
  assert (Hcb : 1 <= id c <= count st) by (apply Hreg; eapply nth_error_In; eauto).
  unfold numbered. rewrite Hcount.
  destruct Hsv as [_ ->|r d _ _ Hl Ht|r said _ _ _ Hl Ht].
  - split; [exact Hcnt|]. split; [exact Hasc|]. split; [exact Hreg|exact Htr].
  - rewrite Hl, Ht. split; [exact Hcnt|]. split; [|split].
    + destruct (vec_erase_split _ _ _ Hc) as (l1 & l2 & El & _ & ->).
      rewrite El, map_app in Hasc. simpl in Hasc. rewrite map_app.
      eapply ascending_remove; eauto.
    + intros c' Hin. apply Hreg. eapply vec_erase_incl; eauto.
    + intros e c' He Hc'. apply in_app_or in He. destruct He as [He|He]; [eauto|].
      simpl in He. destruct He as [<-|He].
      * simpl in Hc'. now injection Hc' as <-.
      * apply in_app_or in He. destruct He as [He|[<-|[]]].
        -- apply in_logs in He. destruct He as [x ->]. discriminate.
        -- simpl in Hc'. now injection Hc' as <-.
  - rewrite Hl, Ht. split; [exact Hcnt|]. split; [exact Hasc|]. split; [exact Hreg|].
    intros e c' He Hc'. apply in_app_or in He. destruct He as [He|He]; [eauto|].
    simpl in He. destruct He as [<-|[<-|[<-|[]]]]; simpl in Hc';
      try discriminate; now injection Hc' as <-.
Qed.

Lemma numbered_run (envs : list pass_env) (st st' : state) :
  numbered st -> run envs st = Some st' -> numbered st'.
Proof.
  apply (run_preserves numbered).
  - intros s (H1 & H2 & H3 & H4).
    split; [exact H1|]. split; [exact H2|]. split; [exact H3|].
    intros e c He Hc. simpl in He. apply in_app_or in He.
    destruct He as [He|[<-|[]]]; [eauto|discriminate].
  - intros b s H. exact H.
  - apply numbered_accept.
  - apply numbered_service.
Qed.

(** X1.  In every state the loop reaches, the ids of the registered
    Sessions rise strictly along the Registry, every Session in the
    Registry or named by a call in the trace has an id between 1 and the
    counter, and the next Session accepted receives the counter plus one:
    an id is never handed out twice, also after its Session has gone. *)
Theorem ids_rise_and_are_never_reused
        (srv : Z) (path : string) (buf : bytes) (envs : list pass_env) (st : state) :
  run envs (initial srv path buf) = Some st ->
  ascending (map id (clientSockets st)) /\
  (forall c, In c (clientSockets st) -> 1 <= id c <= count st) /\
  (forall e c, In e (trace st) -> client_of e = Some c -> 1 <= id c <= count st) /\
  (forall ret st',
      accept_client ret st = Some st' ->
      exists c, clientSockets st' = clientSockets st ++ [c] /\
                id c = count st + 1 /\ count st' = id c).
Proof.
  intros Hrun.
  assert (H0 : numbered (initial srv path buf)).
  { unfold numbered. simpl. repeat split; try lia; intros ? []. }
  destruct (numbered_run _ _ _ H0 Hrun) as (_ & Hasc & Hreg & Htr).
  split; [exact Hasc|]. split; [exact Hreg|]. split; [exact Htr|].
  intros ret st' Ha. apply accept_client_inv in Ha.
  destruct Ha as (_ & Hc & Hl & _). eexists. split; [exact Hl|]. now split.
Qed.

Lemma ids_rise_witness :
  ascending (map id (clientSockets (after [env_first; env_second]))).
Proof.
  destruct (ids_rise_and_are_never_reused
              3 "mu.sock" stack_bytes [env_first; env_second]
              (after [env_first; env_second])) as [H _].
  - vm_compute. reflexivity.
  - exact H.
Defined.

(* ------------------------------------------------------------------ *)
(** ** Accounting *)

Lemma accepts_app (a b : list event) : accepts (a ++ b) = (accepts a + accepts b)%nat.
Proof. unfold accepts. now rewrite filter_app, length_app. Qed.

Lemma all_closes_app (a b : list event) :
  all_closes (a ++ b) = (all_closes a + all_closes b)%nat.
Proof. unfold all_closes. now rewrite filter_app, length_app. Qed.

Lemma logs_count_nothing (d : list diag) :
  accepts (map EvLog d) = 0%nat /\ all_closes (map EvLog d) = 0%nat.
Proof. induction d as [|x d IH]; [now split|exact IH]. Qed.

Lemma length_vec_erase {A : Type} (i : nat) (v : list A) (x : A) :
  nth_error v i = Some x -> S (length (vec_erase i v)) = length v.
Proof.
  intros H. destruct (vec_erase_split _ _ _ H) as (v1 & v2 & -> & _ & ->).
  rewrite !length_app. simpl. lia.
Qed.

Lemma balanced_run (envs : list pass_env) (st st' : state) :
  balanced st -> run envs st = Some st' -> balanced st'.
Proof.
  apply (run_preserves balanced); unfold balanced.
  - intros s [H1 H2]. unfold emit. cbn [count clientSockets trace].
    rewrite accepts_app, all_closes_app.
    change (accepts [EvLog LogNoClients]) with 0%nat.
    change (all_closes [EvLog LogNoClients]) with 0%nat. lia.
  - intros b s H. exact H.
  - intros ret s s' [H1 H2] Ha. apply accept_client_inv in Ha.
    destruct Ha as (_ & Hc & Hl & Ht & _). simpl in Hl, Ht.
    rewrite Hc, Hl, Ht, accepts_app, all_closes_app, length_app.
    change (accepts [EvAccept ret; EvWrite (mkClient (count s + 1) ret) HELLO]) with 1%nat.
    change (all_closes [EvAccept ret; EvWrite (mkClient (count s + 1) ret) HELLO])
      with 0%nat.
    cbn [length]. lia.
  - intros env rs i s s' [H1 H2] Hs. apply service_inv in Hs.
    destruct Hs as (c & ready & Hc & _ & Hsv & Hcount & _). rewrite Hcount.
    destruct Hsv as [_ ->|r d _ _ Hl Ht|r said _ _ _ Hl Ht].
    + now split.
    + pose proof (length_vec_erase _ _ _ Hc) as Hlen.
      destruct (logs_count_nothing d) as [Ha Hb].
      rewrite Hl, Ht, accepts_app, all_closes_app.
      change (EvRead c r :: map EvLog d ++ [EvClose c])
        with ([EvRead c r] ++ map EvLog d ++ [EvClose c]).
      rewrite !accepts_app, !all_closes_app, Ha, Hb.
      change (accepts [EvRead c r]) with 0%nat. change (accepts [EvClose c]) with 0%nat.
      change (all_closes [EvRead c r]) with 0%nat.
      change (all_closes [EvClose c]) with 1%nat. lia.
    + rewrite Hl, Ht, accepts_app, all_closes_app.
      change (accepts [EvRead c r; EvLog (LogSays (id c) said); EvWrite c ENTERCMD])
        with 0%nat.
      change (all_closes [EvRead c r; EvLog (LogSays (id c) said); EvWrite c ENTERCMD])
        with 0%nat. lia.
Qed.

(** X2.  In every state the loop reaches, the counter is the number of
    [accept] calls made so far, and the size of the Registry is that number
    less the number of clients closed: each accepted client is either still
    registered or has been closed. *)
Theorem registry_size_is_accepted_less_closed
        (srv : Z) (path : string) (buf : bytes) (envs : list pass_env) (st : state) :
  run envs (initial srv path buf) = Some st ->
  count st = Z.of_nat (accepts (trace st)) /\
  Z.of_nat (length (clientSockets st))
  = Z.of_nat (accepts (trace st)) - Z.of_nat (all_closes (trace st)).
Proof.
  intros Hrun.
  assert (H0 : balanced (initial srv path buf)) by (unfold balanced; simpl; lia).
  destruct (balanced_run _ _ _ H0 Hrun) as [H1 H2]. lia.
Qed.

Lemma registry_size_witness :
  Z.of_nat (length (clientSockets
                      (after [env_first; env_second;
                              env_both (Some (text "quit")) None])))
  = 2 - 1.
Proof.
  destruct (registry_size_is_accepted_less_closed
              3 "mu.sock" stack_bytes
              [env_first; env_second; env_both (Some (text "quit")) None]
              (after [env_first; env_second; env_both (Some (text "quit")) None]))
    as [_ H].
  - vm_compute. reflexivity.
  - exact H.
Defined.

(* ------------------------------------------------------------------ *)
(** ** Mode of the listening socket *)

(** X3.  A pass leaves the listening socket blocking exactly when it
    found the Registry empty: the mode set at the head of the pass (lines
    128 and 144) is not touched by the accept or by the scan. *)
Theorem mode_follows_registry (env : pass_env) (st st' : state) :
  pass env st = Some st' ->
  nonblock st' = negb (length (clientSockets st) =? 0)%nat.
Proof.
  unfold pass. destruct (length (clientSockets st) =? 0)%nat.
  - intros Ha. apply accept_client_inv in Ha.
    now destruct Ha as (_ & _ & _ & _ & _ & -> & _).
  - destruct (prepareFDReadSet (set_nonblock true st)) as [[maxFD readset0]|];
      [|discriminate].
    destruct (select (maxFD + 1) readset0 env) as [ret readset].
    destruct (ret =? 0); [now intros [= <-]|].
    destruct (FD_ISSET (serverSocket (set_nonblock true st)) readset) as [b|];
      [|discriminate].
    destruct (if b then accept_client (accept_ret env) (set_nonblock true st)
              else Some (set_nonblock true st)) as [st2|] eqn:H2; [|discriminate].
    apply (scan_invariant (fun s => nonblock s = true)).
    + intros i s s' Hs Hv. apply service_inv in Hv.
      destruct Hv as (c & ready & _ & _ & _ & _ & Hn & _). now rewrite Hn.
    + destruct b.
      * apply accept_client_inv in H2.
        now destruct H2 as (_ & _ & _ & _ & _ & -> & _).
      * now injection H2 as <-.
Qed.

Lemma mode_follows_registry_witness :
  nonblock (after [env_first]) = false /\
  nonblock (after [env_first; env_second]) = true.
Proof.
  split.
  - apply (mode_follows_registry env_first boot (after [env_first])).
    vm_compute. reflexivity.
  - apply (mode_follows_registry env_second (after [env_first])
             (after [env_first; env_second])).
    vm_compute. reflexivity.
Defined.

(* ------------------------------------------------------------------ *)
(** ** Reads follow the poll *)

Lemma since_refl (st : state) : since st st = [].
Proof. unfold since. apply skipn_all. Qed.

(** X4.  When [select] succeeds, every read of the pass is made on a
    descriptor that was a candidate at the head of the pass and that the
    system reported readable: the loop does not read where nothing is
    pending. *)
Theorem reads_follow_select (env : pass_env) (st st' : state)
        (c : clientSocketStruct) (r : Z) :
  pass env st = Some st' ->
  select_fails env = false ->
  In (EvRead c r) (since st st') ->
  In (socket c) (candidates st) /\ Z.testbit (readable env) (socket c) = true.
Proof.
  unfold pass. destruct (length (clientSockets st) =? 0)%nat.
  - intros Ha _ Hin. exfalso. apply accept_client_inv in Ha.
    destruct Ha as (_ & _ & _ & Ht & _). simpl in Ht.
    rewrite <- app_assoc in Ht. rewrite (since_app _ _ _ Ht) in Hin.
    simpl in Hin. destruct Hin as [E|[E|[E|[]]]]; discriminate.
  - change (prepareFDReadSet (set_nonblock true st)) with (prepareFDReadSet st).
    destruct (prepareFDReadSet st) as [[maxFD readset0]|] eqn:Hprep; [|discriminate].
    intros Hp Hok.
    pose proof (select_spec st env maxFD readset0 (socket c) Hprep Hok) as Hsel.
    destruct (select (maxFD + 1) readset0 env) as [ret readset]. cbn [snd] in Hsel.
    destruct (ret =? 0).
    { injection Hp as <-. unfold since. simpl. rewrite skipn_all. intros []. }
    destruct (FD_ISSET (serverSocket (set_nonblock true st)) readset) as [b|];
      [|discriminate].
    destruct (if b then accept_client (accept_ret env) (set_nonblock true st)
              else Some (set_nonblock true st)) as [st2|] eqn:H2; [|discriminate].
    apply scan_touches_ready_only in Hp. destruct Hp as [(evs & Ht & Hall) _].
    assert (Hevs : In (EvRead c r) (since st st') -> In (EvRead c r) evs).
    { destruct b.
      - apply accept_client_inv in H2. destruct H2 as (_ & _ & _ & Ht2 & _).
        simpl in Ht2. rewrite Ht2, <- app_assoc in Ht.
        rewrite (since_app _ _ _ Ht). simpl.
        intros [E|[E|Hin]]; try discriminate. exact Hin.
      - injection H2 as <-. simpl in Ht. now rewrite (since_app _ _ _ Ht). }
    intros Hin. apply Hevs in Hin.
    rewrite Forall_forall in Hall. apply Hall in Hin. simpl in Hin.
    apply FD_ISSET_true in Hin. apply Hsel in Hin. tauto.
Qed.

Lemma reads_follow_select_witness :
  In (socket client1) (candidates (after [env_first; env_second])) /\
  Z.testbit (readable (env_both (Some (text "hey")) (Some (text "hi")))) (socket client1)
  = true.
Proof.
  apply (reads_follow_select
           (env_both (Some (text "hey")) (Some (text "hi")))
           (after [env_first; env_second])
           (after [env_first; env_second;
                   env_both (Some (text "hey")) (Some (text "hi"))])
           client1 3).
  - vm_compute. reflexivity.
  - reflexivity.
  - vm_compute. left. reflexivity.
Defined.

(* ------------------------------------------------------------------ *)
(** ** Closed clients *)

(** X6.  In every run, once [closeSocket] has been called on a client no
    read, no write and no second close is made on it, and it is not in the
    Registry: the structure freed on line 313 is never used again. *)
Theorem closed_client_is_left_alone
        (srv : Z) (path : string) (buf : bytes) (envs : list pass_env) (st : state)
        (t1 t2 : list event) (c : clientSocketStruct) :
  run envs (initial srv path buf) = Some st ->
  trace st = t1 ++ EvClose c :: t2 ->
  reads_of (id c) t2 = [] /\ writes_to (id c) t2 = [] /\ closes (id c) t2 = 0%nat /\
  ~ In c (clientSockets st).
Proof.
  intros Hrun Htr.
  pose proof (reachable_consistent _ _ _ _ _ Hrun) as Cst.
  destruct (no_call_after_close st t1 t2 c Cst Htr) as (H1 & H2 & H3).
  repeat split; auto.
  apply gone_not_registered. rewrite <- (in_protocol _ Cst).
  apply closed_once.
  - rewrite (in_protocol _ Cst). apply expected_sound.
  - apply closes_in with (c := c); [|reflexivity].
    rewrite Htr. apply in_or_app. right. now left.
Qed.

Lemma closed_client_witness :
  reads_of 1 [EvRead client2 2; EvLog (LogSays 2 (text "hi")); EvWrite client2 ENTERCMD]
  = [].
Proof.
  destruct (closed_client_is_left_alone
              3 "mu.sock" stack_bytes
              [env_first; env_second; env_both (Some (text "quit")) (Some (text "hi"));
               env_both None (Some (text "hi"))]
              (after [env_first; env_second;
                      env_both (Some (text "quit")) (Some (text "hi"));
                      env_both None (Some (text "hi"))])
              [EvLog LogNoClients; EvAccept 4; EvWrite client1 HELLO;
               EvAccept 5; EvWrite client2 HELLO;
               EvRead client1 4; EvLog (LogSays 1 (text "quit")); EvLog (LogQuit 1)]
              [EvRead client2 2; EvLog (LogSays 2 (text "hi")); EvWrite client2 ENTERCMD]
              client1) as [H _].
  - vm_compute. reflexivity.
  - vm_compute. reflexivity.
  - exact H.
Defined.

(** X7.  After the interrupt handler has run, every client that was ever
    accepted has been closed exactly once, whether it left during the run
    or was still registered, and no close has been made under an id that was
    never handed out. *)
Theorem every_accepted_client_closed_once_at_exit
        (srv : Z) (path : string) (buf : bytes) (envs : list pass_env) (st : state)
        (signal k : Z) :
  run envs (initial srv path buf) = Some st ->
  closes k (trace (signalHandler signal st))
  = if (1 <=? k) && (k <=? count st) then 1%nat else 0%nat.
Proof.
  intros Hrun.
  pose proof (reachable_consistent _ _ _ _ _ Hrun) as Cst.
  pose proof (protocol_after_shutdown signal st k Cst) as Hp.
  destruct ((1 <=? k) && (k <=? count st)).
  - now apply closes_gone.
  - apply closes_not_gone; rewrite Hp; discriminate.
Qed.

Lemma every_accepted_client_witness :
  closes 2 (trace (signalHandler 2
                     (after [env_first; env_second;
                             env_both (Some (text "quit")) None]))) = 1%nat.
Proof.
  apply (every_accepted_client_closed_once_at_exit
           3 "mu.sock" stack_bytes
           [env_first; env_second; env_both (Some (text "quit")) None]
           (after [env_first; env_second; env_both (Some (text "quit")) None]) 2 2).
  vm_compute. reflexivity.
Defined.

(* ------------------------------------------------------------------ *)
(** ** One read per client and pass *)

Lemma reads_of_app (k : Z) (a b : list event) :
  reads_of k (a ++ b) = reads_of k a ++ reads_of k b.
Proof. unfold reads_of. apply flat_map_app. Qed.

Lemma reads_of_logs (k : Z) (d : list diag) : reads_of k (map EvLog d) = [].
Proof. induction d as [|x d IH]; simpl; auto. Qed.

Lemma skipn_nth_error {A : Type} (l1 l2 : list A) (c : A) (n : nat) :
  skipn (S (length l1) + n) (l1 ++ c :: l2) = skipn n l2.
Proof.
  rewrite skipn_app, skipn_all2 by lia.
  replace (S (length l1) + n - length l1)%nat with (S n) by lia. reflexivity.
Qed.

Lemma in_skipn {A : Type} (n : nat) (l : list A) (x : A) : In x (skipn n l) -> In x l.
Proof. intros H. rewrite <- (firstn_skipn n l). apply in_or_app. now right. Qed.

(** What one turn of the scan reads, and which clients stay ahead of the
    index. *)
Lemma service_reads (env : pass_env) (readset : fd_set) (i : nat) (st st' : state) :
  NoDup (map id (clientSockets st)) ->
  service env readset i st = Some st' ->
  exists c rest evs,
    skipn i (clientSockets st) = c :: rest /\
    ~ In (id c) (map id rest) /\
    (forall x, In x (skipn (S i) (clientSockets st')) -> In x rest) /\
    NoDup (map id (clientSockets st')) /\
    trace st' = trace st ++ evs /\
    (forall k, (length (reads_of k evs) <= 1)%nat /\ (k <> id c -> reads_of k evs = [])).
Proof.
  intros Hnd Hs. apply service_inv in Hs.
  destruct Hs as (c & ready & Hc & _ & Hsv & _).
  destruct (vec_erase_split _ _ _ Hc) as (l1 & l2 & El & Hlen & Ee).
  assert (Hskip : skipn i (clientSockets st) = c :: l2).
  { rewrite El, <- Hlen, skipn_app, skipn_all, Nat.sub_diag. reflexivity. }
  assert (Hfresh : ~ In (id c) (map id l2)).
  { rewrite El, map_app in Hnd. simpl in Hnd. apply NoDup_remove_2 in Hnd.
    intros H. apply Hnd. apply in_or_app. now right. }
  assert (Hread : forall k r, k <> id c ->
                    (if id c =? k then [r] else []) = @nil Z).
  { intros k r Hk. destruct (Z.eqb_spec (id c) k); [congruence|reflexivity]. }
  exists c, l2.
  destruct Hsv as [_ ->|r d _ _ Hl Ht|r said _ _ _ Hl Ht].
  - exists []. rewrite app_nil_r. repeat split; auto.
    intros x Hx. rewrite El, <- Hlen in Hx.
    replace (S (length l1)) with (S (length l1) + 0)%nat in Hx by lia.
    now rewrite skipn_nth_error in Hx.
  - exists (EvRead c r :: map EvLog d ++ [EvClose c]). repeat split; auto.
    + intros x Hx. rewrite Hl, Ee, <- Hlen, skipn_app, skipn_all2 in Hx by lia.
      simpl in Hx. now apply in_skipn in Hx.
    + rewrite Hl, Ee. rewrite El, map_app in Hnd. simpl in Hnd.
      apply NoDup_remove_1 in Hnd. now rewrite map_app.
    + change (EvRead c r :: map EvLog d ++ [EvClose c])
        with ([EvRead c r] ++ map EvLog d ++ [EvClose c]).
      rewrite !reads_of_app, reads_of_logs. simpl.
      destruct (id c =? k); simpl; lia.
    + intros Hk.
      change (EvRead c r :: map EvLog d ++ [EvClose c])
        with ([EvRead c r] ++ map EvLog d ++ [EvClose c]).
      rewrite !reads_of_app, reads_of_logs. simpl. now rewrite (Hread k r Hk).
  - exists [EvRead c r; EvLog (LogSays (id c) said); EvWrite c ENTERCMD].
    repeat split; auto.
    + intros x Hx. rewrite Hl, El, <- Hlen in Hx.
      replace (S (length l1)) with (S (length l1) + 0)%nat in Hx by lia.
      now rewrite skipn_nth_error in Hx.
    + now rewrite Hl.
    + simpl. destruct (id c =? k); simpl; lia.
    + intros Hk. simpl. now rewrite (Hread k r Hk).
Qed.

Lemma scan_reads_once (env : pass_env) (readset : fd_set) (fuel : nat) :
  forall i st st',
    NoDup (map id (clientSockets st)) ->
    scan fuel env readset i st = Some st' ->
    exists evs,
      trace st' = trace st ++ evs /\
      forall k, (length (reads_of k evs) <= 1)%nat /\
                (~ In k (map id (skipn i (clientSockets st))) -> reads_of k evs = []).
Proof.
  induction fuel as [|fuel IH]; intros i st st' Hnd H; simpl in H.
  - injection H as <-. exists []. rewrite app_nil_r. split; [reflexivity|].
    intros k. simpl. split; [lia|reflexivity].
  - destruct (i <? length (clientSockets st))%nat.
    + destruct (service env readset i st) as [s|] eqn:Hs; [|discriminate].
      destruct (service_reads _ _ _ _ _ Hnd Hs)
        as (c & rest & evs0 & Hskip & Hfresh & Hsub & Hnd' & Ht0 & Hr0).
      destruct (IH (S i) s st' Hnd' H) as (evs1 & Ht1 & Hr1).
      exists (evs0 ++ evs1). split; [now rewrite Ht1, Ht0, app_assoc|].
      assert (Hout : forall k, ~ In k (map id rest) -> reads_of k evs1 = []).
      { intros k Hk. apply (Hr1 k). intros Hin. apply Hk.
        apply in_map_iff in Hin. destruct Hin as (x & <- & Hx).
        apply in_map. now apply Hsub. }
      intros k. rewrite reads_of_app, length_app. split.
      * destruct (Z.eq_dec k (id c)) as [->|Hne].
        -- rewrite (Hout (id c) Hfresh). simpl. destruct (Hr0 (id c)). lia.
        -- destruct (Hr0 k) as [_ H0]. rewrite (H0 Hne). simpl. apply (Hr1 k).
      * intros Hk. rewrite Hskip in Hk. simpl in Hk.
        destruct (Hr0 k) as [_ H0]. rewrite H0 by intuition.
        apply Hout. intuition.
    + injection H as <-. exists []. rewrite app_nil_r. split; [reflexivity|].
      intros k. simpl. split; [lia|reflexivity].
Qed.

(** X5.  In a pass of any run no client is read more than once: the scan
    visits each index once and a client never moves to an index the scan
    has yet to visit. *)
Theorem at_most_one_read_per_client_per_pass
        (srv : Z) (path : string) (buf : bytes) (envs : list pass_env)
        (env : pass_env) (st st' : state) (k : Z) :
  run envs (initial srv path buf) = Some st ->
  pass env st = Some st' ->
  (length (reads_of k (since st st')) <= 1)%nat.
Proof.
  intros Hrun.
  pose proof (ids_distinct _ (reachable_consistent _ _ _ _ _ Hrun)) as Hnd.
  unfold pass. destruct (length (clientSockets st) =? 0)%nat.
  - intros Ha. apply accept_client_inv in Ha.
    destruct Ha as (_ & _ & _ & Ht & _). simpl in Ht.
    rewrite <- app_assoc in Ht. rewrite (since_app _ _ _ Ht). simpl. lia.
  - destruct (prepareFDReadSet (set_nonblock true st)) as [[maxFD readset0]|];
      [|discriminate].
    destruct (select (maxFD + 1) readset0 env) as [ret readset].
    destruct (ret =? 0).
    { intros [= <-]. unfold since. simpl. rewrite skipn_all. simpl. lia. }
    destruct (FD_ISSET (serverSocket (set_nonblock true st)) readset) as [b|];
      [|discriminate].
    destruct (if b then accept_client (accept_ret env) (set_nonblock true st)
              else Some (set_nonblock true st)) as [st2|] eqn:H2; [|discriminate].
    intros Hscan.
    assert (H2' : NoDup (map id (clientSockets st2)) /\
                  exists evs, trace st2 = trace st ++ evs /\ reads_of k evs = []).
    { destruct b.
      - pose proof (consistent_accept (accept_ret env) (set_nonblock true st) st2) as Hc.
        split.
        + apply ids_distinct, Hc; [|exact H2].
          destruct (reachable_consistent _ _ _ _ _ Hrun) as [A B C D]. now split.
        + apply accept_client_inv in H2. destruct H2 as (_ & _ & _ & Ht & _).
          eexists. split; [exact Ht|reflexivity].
      - injection H2 as <-. split; [exact Hnd|]. exists []. simpl.
        now rewrite app_nil_r. }
    destruct H2' as (Hnd2 & evs2 & Ht2 & Hr2).
    destruct (scan_reads_once _ _ _ _ _ _ Hnd2 Hscan) as (evs & Ht & Hr).
    rewrite Ht2, <- app_assoc in Ht. rewrite (since_app _ _ _ Ht).
    rewrite reads_of_app, Hr2. simpl. apply (Hr k).
Qed.

Lemma at_most_one_read_witness :
  (length (reads_of 2
             (since (after [env_first; env_second])
                    (after [env_first; env_second;
                            env_both (Some (text "hey")) (Some (text "hi"))]))) <= 1)%nat.
Proof.
  apply (at_most_one_read_per_client_per_pass
           3 "mu.sock" stack_bytes [env_first; env_second]
           (env_both (Some (text "hey")) (Some (text "hi")))).
  - vm_compute. reflexivity.
  - vm_compute. reflexivity.
Defined.

(* ------------------------------------------------------------------ *)
(** ** Runs without undefined behaviour *)







(* ------------------------------------------------------------------ *)
(** ** The candidate set, in general *)

Lemma fold_max_bounds (l : list Z) :
  forall a, a <= fold_left Z.max l a /\
            (forall x, In x l -> x <= fold_left Z.max l a) /\
            (fold_left Z.max l a = a \/ In (fold_left Z.max l a) l).
Proof.
  induction l as [|y l IH]; intros a; simpl.
  - split; [lia|]. split; [intros x []|now left].
  - destruct (IH (Z.max a y)) as (H1 & H2 & H3). split; [lia|]. split.
    + intros x [<-|Hx]; [lia|now apply H2].
    + destruct H3 as [H3|H3]; [|now right; right].
      rewrite H3. destruct (Z.max_spec a y) as [[_ ->]|[_ ->]]; [right|]; now left.
Qed.

(** X9.  [prepareFDReadSet] is defined exactly when the endpoint and every
    registered descriptor are below [FD_SETSIZE].  The set it builds holds
    the endpoint and the registered descriptors and nothing else; the value
    it returns bounds the registered descriptors only, and is one of them
    unless it is 0. *)
Theorem prepareFDReadSet_builds_candidates (st : state) :
  ((exists r, prepareFDReadSet st = Some r) <-> sockets_in_range st) /\
  forall maxFD readset,
    prepareFDReadSet st = Some (maxFD, readset) ->
    (forall m, Z.testbit readset m = true <-> In m (candidates st)) /\
    (forall c, In c (clientSockets st) -> socket c <= maxFD) /\
    (maxFD = 0 \/ In maxFD (map socket (clientSockets st))).
Proof.
  split.
  - split; [|apply prepareFDReadSet_defined].
    intros [[maxFD readset] H]. apply prepareFDReadSet_spec in H.
    destruct H as (_ & Hr & _). split.
    + apply Hr. now left.
    + intros c Hc. apply Hr. right. now apply in_map.
  - intros maxFD readset H. apply prepareFDReadSet_spec in H.
    destruct H as (Hb & _ & ->).
    destruct (fold_max_bounds (map socket (clientSockets st)) 0) as (_ & H2 & H3).
    split; [exact Hb|]. split; [|exact H3].
    intros c Hc. apply H2. now apply in_map.
Qed.

(* ------------------------------------------------------------------ *)
(** ** A failing [select] *)

Lemma scan_grows (env : pass_env) (readset : fd_set) (fuel i : nat) (st st' : state) :
  scan fuel env readset i st = Some st' -> exists evs, trace st' = trace st ++ evs.
Proof.
  intros H.
  apply (scan_invariant (fun s => grows_from st s) env readset) in H.
  - now destruct H.
  - intros j s s' Hg Hs. eapply grows_service; eauto.
  - apply grows_refl.
Qed.

(** X11.  The result of [select] is compared with 0 only.  When [select]
    fails (-1) the set still holds every candidate, so with a client
    registered the pass calls [accept], greets and registers what it
    returned, and then reads from the first registered client, whether or
    not anything is pending there. *)
Theorem failed_select_is_taken_for_readiness
        (env : pass_env) (st st' : state) (c0 : clientSocketStruct) :
  pass env st = Some st' ->
  select_fails env = true ->
  nth_error (clientSockets st) 0 = Some c0 ->
  exists r rest,
    since st st' = EvAccept (accept_ret env)
                   :: EvWrite (mkClient (count st + 1) (accept_ret env)) HELLO
                   :: EvRead c0 r :: rest.
Proof.
  intros Hp Hfail Hc0. unfold pass in Hp.
  destruct (clientSockets st) as [|c l] eqn:Hcl; [discriminate|].
  simpl in Hc0. injection Hc0 as ->. rewrite <- Hcl in Hp.
  replace (length (clientSockets st) =? 0)%nat with false in Hp
    by (now rewrite Hcl).
  change (prepareFDReadSet (set_nonblock true st)) with (prepareFDReadSet st) in Hp.
  destruct (prepareFDReadSet st) as [[maxFD readset0]|] eqn:Hprep; [|discriminate].
  destruct (prepareFDReadSet_spec _ _ _ Hprep) as (Hbits & Hrange & _).
  unfold select in Hp. rewrite Hfail in Hp.
  change (-1 =? 0) with false in Hp. cbv iota in Hp.
  assert (Hset : forall m, In m (candidates st) -> FD_ISSET m readset0 = Some true).
  { intros m Hm. unfold FD_ISSET. rewrite (Hrange m Hm).
    f_equal. now apply Hbits. }
  change (serverSocket (set_nonblock true st)) with (serverSocket st) in Hp.
  rewrite (Hset (serverSocket st)) in Hp by now left.
  cbv iota beta in Hp.
  destruct (accept_client (accept_ret env) (set_nonblock true st)) as [st2|] eqn:Ha;
    [|discriminate].
  apply accept_client_inv in Ha.
  destruct Ha as (_ & _ & Hl2 & Ht2 & _). simpl in Hl2, Ht2.
  destruct (length (clientSockets st2)) as [|n] eqn:Hlen.
  { rewrite Hl2, Hcl in Hlen. discriminate. }
  simpl in Hp. rewrite Hlen in Hp. simpl in Hp.
  destruct (service env readset0 0 st2) as [s|] eqn:Hs; [|discriminate].
  apply scan_grows in Hp. destruct Hp as [evs Ht].
  apply service_inv in Hs. destruct Hs as (c & ready & Hc & Hrd & Hsv & _).
  rewrite Hl2, Hcl in Hc. simpl in Hc. injection Hc as <-.
  rewrite (Hset (socket c0)) in Hrd
    by (right; rewrite Hcl; now left).
  injection Hrd as <-.
  destruct Hsv as [Hno _|r d _ _ _ Hts|r said _ _ _ _ Hts]; [discriminate| |].
  - exists r, (map EvLog d ++ [EvClose c0] ++ evs).
    apply since_app. rewrite Ht, Hts, Ht2, <- !app_assoc. simpl.
    now rewrite <- app_assoc.
  - exists r, ([EvLog (LogSays (id c0) said); EvWrite c0 ENTERCMD] ++ evs).
    apply since_app. rewrite Ht, Hts, Ht2, <- !app_assoc. reflexivity.
Qed.

Lemma failed_select_witness :
  exists r rest,
    since (after [env_first])
          (after [env_first; mkEnv 5 0 true (fun _ => Some (text "hi"))])
    = EvAccept 5 :: EvWrite (mkClient (count (after [env_first]) + 1) 5) HELLO
      :: EvRead client1 r :: rest.
Proof.
  apply (failed_select_is_taken_for_readiness
           (mkEnv 5 0 true (fun _ => Some (text "hi")))
           (after [env_first])
           (after [env_first; mkEnv 5 0 true (fun _ => Some (text "hi"))])
           client1).
  - vm_compute. reflexivity.
  - reflexivity.
  - reflexivity.
Defined.

(* ------------------------------------------------------------------ *)
(** ** The diagnostic of a failed read *)

Lemma perror_arg_inside (c : clientSocketStruct) :
  0 <= id c <= 14 ->
  perror_arg c = Some (skipn (Z.to_nat (id c)) (text "client socket ")).
Proof.
  intros Hid. unfold perror_arg.
  replace ((0 <=? id c) && (id c <? Z.of_nat (sizeof (literal "client socket "))))
    with true
    by (symmetry; apply andb_true_iff; split;
        [apply Z.leb_le; lia|apply Z.ltb_lt; simpl; lia]).
  assert (Hn : (Z.to_nat (id c) <= 14)%nat) by lia.
  destruct (Z.to_nat (id c)) as [|n]; [reflexivity|].
  do 14 (destruct n as [|n]; [reflexivity|]). lia.
Qed.

Lemma perror_arg_outside (c : clientSocketStruct) :
  15 <= id c -> perror_arg c = None.
Proof.
  intros Hid. unfold perror_arg.
  replace (id c <? Z.of_nat (sizeof (literal "client socket "))) with false
    by (symmetry; apply Z.ltb_ge; simpl; lia).
  now rewrite andb_false_r.
Qed.

(** X12.  When the read on a ready client fails, the argument of [perror]
    is the literal advanced by the client's id: the text printed is
    "client socket " without its first [id] characters, and the client is
    closed and erased with the buffer untouched.  From id 15 on the pointer
    is past the literal and the call is undefined. *)
Theorem failed_read_diagnostic_is_cut_by_id
        (env : pass_env) (readset : fd_set) (i : nat) (st : state)
        (c : clientSocketStruct) :
  nth_error (clientSockets st) i = Some c ->
  FD_ISSET (socket c) readset = Some true ->
  rx env (socket c) = None ->
  (0 <= id c <= 14 ->
   exists st',
     service env readset i st = Some st' /\
     since st st' = [EvRead c (-1);
                     EvLog (LogPerror (skipn (Z.to_nat (id c)) (text "client socket ")));
                     EvClose c] /\
     clientSockets st' = vec_erase i (clientSockets st) /\
     buffer st' = buffer st) /\
  (15 <= id c -> service env readset i st = None).
Proof.
  intros Hc Hrd Hrx. unfold service. rewrite Hc, Hrd, Hrx.
  unfold sys_read. change (-1 <? 0) with true. cbv iota beta.
  split; intros Hid.
  - rewrite (perror_arg_inside c Hid). eexists. split; [reflexivity|].
    split; [|split; reflexivity].
    apply since_app. simpl. rewrite <- !app_assoc. reflexivity.
  - now rewrite (perror_arg_outside c Hid).
Qed.

Lemma failed_read_diagnostic_witness :
  exists st',
    service (mkEnv (-1) (fd_mask [4]) false (fun _ => None)) (fd_mask [4]) 0
            (after [env_first]) = Some st' /\
    since (after [env_first]) st'
    = [EvRead client1 (-1); EvLog (LogPerror (text "lient socket ")); EvClose client1] /\
    clientSockets st' = [] /\
    buffer st' = buffer (after [env_first]).
Proof.
  destruct (failed_read_diagnostic_is_cut_by_id
              (mkEnv (-1) (fd_mask [4]) false (fun _ => None)) (fd_mask [4]) 0
              (after [env_first]) client1) as [H _].
  - reflexivity.
  - reflexivity.
  - reflexivity.
  - apply H. simpl. lia.
Defined.

(* ------------------------------------------------------------------ *)
(** ** The slot behind a dropped client *)

(** X13.  Whenever the scan closes the client at index [i], the client
    that stood at index [i+1] takes its place and is passed over: the rest
    of the scan makes no read, write or close on it, whether or not its
    descriptor is in the read set. *)
Theorem client_behind_a_dropped_one_is_passed_over
        (env : pass_env) (readset : fd_set) (fuel i : nat) (st st1 st2 : state)
        (c c2 : clientSocketStruct) :
  NoDup (clientSockets st) ->
  nth_error (clientSockets st) i = Some c ->
  nth_error (clientSockets st) (S i) = Some c2 ->
  service env readset i st = Some st1 ->
  In (EvClose c) (since st st1) ->
  scan fuel env readset (S i) st1 = Some st2 ->
  nth_error (clientSockets st2) i = Some c2 /\
  Forall (untouched c2) (since st st2).
Proof.
  intros Hnd Hc Hc2 Hs Hclose Hscan.
  assert (Hne : c <> c2).
  { intros ->. rewrite NoDup_nth_error in Hnd.
    assert (i = S i); [|lia].
    apply Hnd; [apply nth_error_Some; congruence|congruence]. }
  apply service_inv in Hs. destruct Hs as (c' & ready & Hc' & _ & Hsv & _).
  assert (c' = c) by congruence. subst c'.
  destruct Hsv as [_ ->|r d _ _ Hl Ht|r said _ _ _ _ Ht].
  - rewrite since_refl in Hclose. destruct Hclose.
  - destruct (erased_slot_is_skipped env readset fuel i st st1 st2 c2 Hnd Hc2 Hl Hscan)
      as [Hslot Hrest].
    split; [exact Hslot|].
    destruct (scan_grows _ _ _ _ _ _ Hscan) as [evs Ht2].
    rewrite (since_app _ _ _ Ht2) in Hrest.
    rewrite Ht, <- app_assoc in Ht2. rewrite (since_app _ _ _ Ht2).
    apply Forall_app. split; [|exact Hrest].
    constructor; [exact Hne|]. apply Forall_app. split.
    + apply Forall_forall. intros e He. apply in_map_iff in He.
      destruct He as (x & <- & _). exact I.
    + constructor; [exact Hne|constructor].
  - rewrite (since_app _ _ _ Ht) in Hclose. simpl in Hclose.
    destruct Hclose as [E|[E|[E|[]]]]; discriminate.
Qed.

Lemma client_behind_witness :
  nth_error (clientSockets
               (after [env_first; env_second;
                       env_both (Some (text "quit")) (Some (text "hi"))])) 0
  = Some client2 /\
  Forall (untouched client2)
         (since (after [env_first; env_second])
                (after [env_first; env_second;
                        env_both (Some (text "quit")) (Some (text "hi"))])).
Proof.
  apply (client_behind_a_dropped_one_is_passed_over
           (env_both (Some (text "quit")) (Some (text "hi"))) (fd_mask [4; 5]) 2 0
           (after [env_first; env_second])
           (mkState 3 "mu.sock" true [client2] 2
                    (text "quit" ++ NUL :: skipn 5 stack_bytes)
                    (trace (after [env_first; env_second])
                     ++ [EvRead client1 4; EvLog (LogSays 1 (text "quit"));
                         EvLog (LogQuit 1); EvClose client1]))
           (after [env_first; env_second;
                   env_both (Some (text "quit")) (Some (text "hi"))])
           client1 client2).
  - vm_compute. repeat constructor; simpl; intuition discriminate.
  - reflexivity.
  - reflexivity.
  - vm_compute. reflexivity.
  - vm_compute. right. right. right. left. reflexivity.
  - vm_compute. reflexivity.
Defined.

(* ------------------------------------------------------------------ *)
(** ** The name of the socket file *)

Lemma until_nul_clean (p : bytes) : ~ In NUL p -> until_nul p = p.
Proof.
  induction p as [|c p IH]; simpl; intros H; [reflexivity|].
  destruct (Ascii.eqb_spec c NUL) as [->|_]; [exfalso; apply H; now left|].
  rewrite IH; [reflexivity|]. intros Hin. apply H. now right.
Qed.

Lemma c_str_length (a : bytes) :
  forall t, c_str a = Some t -> (length t < length a)%nat.
Proof.
  induction a as [|c a IH]; intros t H; simpl in H; [discriminate|].
  destruct (Ascii.eqb c NUL).
  - injection H as <-. simpl. lia.
  - destruct (c_str a) as [t'|]; [|discriminate]. injection H as <-.
    simpl. specialize (IH t' eq_refl). lia.
Qed.

Lemma strncpy_written_short (p rest : bytes) :
  forall n, ~ In NUL p -> (length p < n)%nat ->
            strncpy_written (p ++ NUL :: rest) n = Some (p ++ repeat NUL (n - length p)).
Proof.
  induction p as [|c p IH]; intros n Hp Hn.
  - destruct n as [|n]; [simpl in Hn; lia|]. reflexivity.
  - destruct n as [|n]; [simpl in Hn; lia|]. cbn [app strncpy_written].
    destruct (Ascii.eqb_spec c NUL) as [->|_]; [exfalso; apply Hp; now left|].
    rewrite IH; [reflexivity| |simpl in Hn; lia].
    intros Hin. apply Hp. now right.
Qed.

Lemma strncpy_written_long (p rest : bytes) :
  forall n, ~ In NUL p -> (n <= length p)%nat ->
            strncpy_written (p ++ rest) n = Some (firstn n p).
Proof.
  induction p as [|c p IH]; intros n Hp Hn.
  - destruct n as [|n]; [now destruct rest|simpl in Hn; lia].
  - destruct n as [|n]; [reflexivity|]. cbn [app strncpy_written firstn].
    destruct (Ascii.eqb_spec c NUL) as [->|_]; [exfalso; apply Hp; now left|].
    rewrite IH; [reflexivity| |simpl in Hn; lia].
    intros Hin. apply Hp. now right.
Qed.

(** What an interrupted program that reached its loop has done. *)
Lemma interrupted_inv (sun_path_size : nat) (prog file : string) (e : start_env)
      (buf : bytes) (envs : list pass_env) (signal : Z)
      (evs : list start_event) (st : state) :
  interrupted sun_path_size [prog; file] e buf envs signal = Some (evs, Looping st) ->
  exists sun_path,
    strncpy (stack_un e) (literal file) (sun_path_size - 1) = Some sun_path /\
    In (StBind (socket_ret e) sun_path (bind_ret e)) evs /\
    In (EvUnlink file) (trace st).
Proof.
  unfold interrupted, startup.
  destruct (socket_ret e <? 0); [discriminate|].
  destruct (strncpy (stack_un e) (literal file) (sun_path_size - 1)) as [sun_path|];
    [|discriminate].
  destruct (bind_ret e <? 0); [discriminate|].
  destruct (listen_ret e <? 0); [discriminate|].
  destruct (run envs (initial (socket_ret e) file buf)) as [s|] eqn:Hrun; [|discriminate].
  intros H. injection H as <- <-. exists sun_path.
  split; [reflexivity|]. split; [right; now left|].
  apply run_grows in Hrun. destruct Hrun as [_ [_ Hf]]. simpl in Hf.
  rewrite signalHandler_trace, Hf.
  apply in_or_app. right. right. apply in_or_app. right. now left.
Qed.

(** X14.  A socket file name shorter than [sizeof(un.sun_path) - 1] goes
    through [strncpy] unchanged and terminated, whatever the stack held:
    the name given to [bind] is the name given on the command line, and it
    is the name unlinked when the program is interrupted. *)
Theorem short_name_is_bound_and_unlinked
        (sun_path_size : nat) (prog file : string) (e : start_env) (buf : bytes)
        (envs : list pass_env) (signal : Z) (evs : list start_event) (st : state) :
  interrupted sun_path_size [prog; file] e buf envs signal = Some (evs, Looping st) ->
  ~ In NUL (text file) ->
  (length (text file) < sun_path_size - 1)%nat ->
  exists sun_path,
    In (StBind (socket_ret e) sun_path (bind_ret e)) evs /\
    c_str sun_path = Some (text file) /\
    length sun_path = length (stack_un e) /\
    In (EvUnlink file) (trace st).
Proof.
  intros H Hclean Hshort. apply interrupted_inv in H.
  destruct H as (sun_path & Hcpy & Hbind & Hunl).
  exists sun_path. split; [exact Hbind|].
  unfold strncpy in Hcpy.
  destruct (Nat.leb_spec (sun_path_size - 1) (length (stack_un e))) as [Hfit|];
    [|discriminate].
  unfold literal in Hcpy. fold (text file) in Hcpy.
  rewrite (strncpy_written_short (text file) [] _ Hclean Hshort) in Hcpy.
  injection Hcpy as <-.
  destruct (sun_path_size - 1 - length (text file))%nat as [|k] eqn:Hk; [lia|].
  split; [|split; [|exact Hunl]].
  - cbn [repeat]. rewrite <- app_assoc. cbn [app].
    now rewrite c_str_terminated, until_nul_clean.
  - rewrite !length_app, repeat_length, length_skipn. lia.
Qed.

Lemma short_name_witness :
  exists sun_path,
    In (StBind 3 sun_path 0)
       [StSocket 3;
        StBind 3 (text "mu" ++ [NUL; NUL; NUL; NUL; NUL; "x"%char]) 0;
        StListen 3 10 0; StAtexit; StSignal] /\
    c_str sun_path = Some (text "mu") /\
    length sun_path = 8%nat /\
    In (EvUnlink "mu")
       (trace (signalHandler 2 (initial 3 "mu" stack_bytes))).
Proof.
  apply (short_name_is_bound_and_unlinked
           8 "server" "mu" (mkStart 3 (repeat "x"%char 8) 0 0) stack_bytes [] 2).
  - vm_compute. reflexivity.
  - simpl. intros [E|[E|[]]]; discriminate.
  - simpl. lia.
Defined.

(** X15.  Of a name with [sizeof(un.sun_path) - 1] characters or more only
    the first [sizeof(un.sun_path) - 1] are copied and no zero byte is
    written: what follows them in the array is what the stack held.  With
    [sizeof(un.sun_path)] characters or more the text in the array cannot
    be the name given, yet the name given is the one unlinked when the
    program is interrupted. *)
Theorem long_name_is_cut_but_unlinked_whole
        (sun_path_size : nat) (prog file : string) (e : start_env) (buf : bytes)
        (envs : list pass_env) (signal : Z) (evs : list start_event) (st : state) :
  interrupted sun_path_size [prog; file] e buf envs signal = Some (evs, Looping st) ->
  ~ In NUL (text file) ->
  length (stack_un e) = sun_path_size ->
  (sun_path_size - 1 <= length (text file))%nat ->
  exists sun_path,
    In (StBind (socket_ret e) sun_path (bind_ret e)) evs /\
    sun_path = firstn (sun_path_size - 1) (text file)
               ++ skipn (sun_path_size - 1) (stack_un e) /\
    ((sun_path_size <= length (text file))%nat -> c_str sun_path <> Some (text file)) /\
    In (EvUnlink file) (trace st).
Proof.
  intros H Hclean Hstack Hlong. apply interrupted_inv in H.
  destruct H as (sun_path & Hcpy & Hbind & Hunl).
  exists sun_path. split; [exact Hbind|].
  unfold strncpy in Hcpy.
  destruct (Nat.leb_spec (sun_path_size - 1) (length (stack_un e))) as [Hfit|];
    [|discriminate].
  unfold literal in Hcpy. fold (text file) in Hcpy.
  rewrite (strncpy_written_long (text file) [NUL] _ Hclean Hlong) in Hcpy.
  injection Hcpy as <-.
  split; [reflexivity|]. split; [|exact Hunl].
  intros Hlonger Hc. apply c_str_length in Hc.
  rewrite length_app, length_firstn, length_skipn in Hc. lia.
Qed.

Lemma long_name_witness :
  exists sun_path,
    In (StBind 3 sun_path 0)
       [StSocket 3; StBind 3 (text "socket.x") 0; StListen 3 10 0; StAtexit; StSignal] /\
    sun_path = firstn 7 (text "socket.file") ++ skipn 7 (repeat "x"%char 8) /\
    ((8 <= length (text "socket.file"))%nat -> c_str sun_path <> Some (text "socket.file")) /\
    In (EvUnlink "socket.file")
       (trace (signalHandler 2 (initial 3 "socket.file" stack_bytes))).
Proof.
  apply (long_name_is_cut_but_unlinked_whole
           8 "server" "socket.file" (mkStart 3 (repeat "x"%char 8) 0 0) stack_bytes [] 2).
  - vm_compute. reflexivity.
  - simpl. intuition discriminate.
  - reflexivity.
  - simpl. lia.
Defined.

(* ------------------------------------------------------------------ *)
(** ** Quiet passes *)

Lemma fd_count_zero (nfds : Z) (s : fd_set) :
  fd_count nfds s = 0 ->
  forall m, 0 <= m < nfds -> Z.testbit s m = false.
Proof.
  unfold fd_count. intros H m Hm.
  destruct (Z.testbit s m) eqn:Hbit; [exfalso|reflexivity].
  assert (Hin : In (Z.to_nat m)
                   (filter (fun k => Z.testbit s (Z.of_nat k)) (seq 0 (Z.to_nat nfds)))).
  { apply filter_In. split; [apply in_seq; lia|].
    now rewrite Z2Nat.id by lia. }
  destruct (filter _ _); [destruct Hin|simpl in H; lia].
Qed.

Lemma fd_count_pos (nfds : Z) (s : fd_set) :
  fd_count nfds s <> 0 ->
  exists m, 0 <= m < nfds /\ Z.testbit s m = true.
Proof.
  unfold fd_count. intros H.
  destruct (filter (fun k => Z.testbit s (Z.of_nat k)) (seq 0 (Z.to_nat nfds)))
    as [|k l] eqn:Hf; [now contradiction H|].
  assert (Hin : In k (filter (fun k => Z.testbit s (Z.of_nat k)) (seq 0 (Z.to_nat nfds))))
    by (rewrite Hf; now left).
  apply filter_In in Hin. destruct Hin as [Hk Hbit]. apply in_seq in Hk.
  exists (Z.of_nat k). split; [lia|exact Hbit].
Qed.

(** A scan that has a ready client ahead of it makes a call. *)
Lemma scan_wakes (env : pass_env) (readset : fd_set) (fuel : nat) :
  forall i st st',
    (length (clientSockets st) - i <= fuel)%nat ->
    scan fuel env readset i st = Some st' ->
    (exists c, In c (skipn i (clientSockets st)) /\
               FD_ISSET (socket c) readset = Some true) ->
    exists e evs, trace st' = trace st ++ e :: evs.
Proof.
  induction fuel as [|fuel IH]; intros i st st' Hfuel H (c & Hc & Hrd).
  - rewrite skipn_all2 in Hc by lia. destruct Hc.
  - simpl in H.
    destruct (Nat.ltb_spec i (length (clientSockets st))) as [Hlt|Hge];
      [|rewrite skipn_all2 in Hc by lia; destruct Hc].
    destruct (service env readset i st) as [s|] eqn:Hs; [|discriminate].
    apply service_inv in Hs. destruct Hs as (ci & ready & Hci & Hri & Hsv & _).
    destruct (scan_grows _ _ _ _ _ _ H) as [rest Hrest].
    destruct Hsv as [Hno ->|r d _ _ _ Ht|r said _ _ _ _ Ht].
    + apply (IH (S i) st st'); [lia|exact H|]. exists c. split; [|exact Hrd].
      destruct (vec_erase_split _ _ _ Hci) as (l1 & l2 & El & Hlen & _).
      rewrite El, <- Hlen, skipn_app, skipn_all, Nat.sub_diag in Hc.
      simpl in Hc. destruct Hc as [<-|Hc]; [congruence|].
      rewrite El, <- Hlen.
      replace (S (length l1)) with (S (length l1) + 0)%nat by lia.
      now rewrite skipn_nth_error.
    + rewrite Ht, <- app_assoc in Hrest. simpl in Hrest. eauto.
    + rewrite Ht, <- app_assoc in Hrest. simpl in Hrest. eauto.
Qed.

(** X10.  With a client registered and [select] succeeding, a pass makes
    no call and writes no line exactly when none of the candidates up to
    [maxFD] has input pending; whenever one has, the pass does something. *)
Theorem pass_is_quiet_iff_nothing_pending
        (env : pass_env) (st st' : state) (maxFD : Z) (readset0 : fd_set) :
  pass env st = Some st' ->
  clientSockets st <> [] ->
  select_fails env = false ->
  prepareFDReadSet st = Some (maxFD, readset0) ->
  (since st st' = [] <->
   forall m, In m (candidates st) -> m <= maxFD -> Z.testbit (readable env) m = false).
Proof.
  intros Hp Hne Hok Hprep.
  pose proof (fun m => select_spec st env maxFD readset0 m Hprep Hok) as Hbits.
  destruct (prepareFDReadSet_spec _ _ _ Hprep) as (_ & Hrange & _).
  unfold pass in Hp.
  replace (length (clientSockets st) =? 0)%nat with false in Hp
    by (destruct (clientSockets st); [now contradiction Hne|reflexivity]).
  change (prepareFDReadSet (set_nonblock true st)) with (prepareFDReadSet st) in Hp.
  rewrite Hprep in Hp.
  unfold select in Hp, Hbits. rewrite Hok in Hp, Hbits. cbn [snd] in Hbits.
  set (ready := Z.land (Z.land readset0 (Z.ones (maxFD + 1))) (readable env)) in *.
  destruct (Z.eqb_spec (fd_count (maxFD + 1) ready) 0) as [Hz|Hnz].
  - injection Hp as <-. split.
    + intros _ m Hm Hle.
      destruct (Z.testbit (readable env) m) eqn:Hr; [|reflexivity].
      assert (H0 : 0 <= m).
      { apply Hrange in Hm. unfold fd_in_range in Hm.
        apply andb_true_iff in Hm. destruct Hm as [Hm _]. now apply Z.leb_le. }
      rewrite <- (fd_count_zero _ _ Hz m) by lia. symmetry. now apply Hbits.
    + intros _. unfold since. simpl. apply skipn_all.
  - destruct (fd_count_pos _ _ Hnz) as (m & Hm & Hbit).
    apply Hbits in Hbit. destruct Hbit as (Hcand & Hle & Hrd).
    assert (Hloud : since st st' <> []).
    { change (serverSocket (set_nonblock true st)) with (serverSocket st) in Hp.
      destruct (FD_ISSET (serverSocket st) ready) as [b|] eqn:Hsrv; [|discriminate].
      destruct b.
      - destruct (accept_client (accept_ret env) (set_nonblock true st))
          as [st2|] eqn:Ha; [|discriminate].
        apply accept_client_inv in Ha. destruct Ha as (_ & _ & _ & Ht2 & _).
        simpl in Ht2. apply scan_grows in Hp. destruct Hp as [evs Ht].
        rewrite Ht2, <- app_assoc in Ht. rewrite (since_app _ _ _ Ht). discriminate.
      - destruct Hcand as [<-|Hcand].
        + exfalso. unfold FD_ISSET in Hsrv.
          destruct (fd_in_range (serverSocket st)); [|discriminate].
          assert (Z.testbit ready (serverSocket st) = true)
            by (apply Hbits; repeat split; auto; now left).
          congruence.
        + apply in_map_iff in Hcand. destruct Hcand as (c & <- & Hc).
          apply scan_wakes in Hp.
          * destruct Hp as (e & evs & Ht). simpl in Ht.
            rewrite (since_app _ _ _ Ht). discriminate.
          * simpl. lia.
          * exists c. split; [exact Hc|]. unfold FD_ISSET.
            rewrite (Hrange (socket c)) by (right; now apply in_map).
            f_equal. apply Hbits. repeat split; auto. right. now apply in_map. }
    split; [intros E; now contradiction Hloud|].
    intros Hall. rewrite (Hall m Hcand Hle) in Hrd. discriminate.
Qed.

Lemma pass_is_quiet_witness :
  since (after [env_first])
        (after [env_first; mkEnv (-1) (fd_mask [7]) false (fun _ => None)]) = [] <->
  forall m, In m (candidates (after [env_first])) -> m <= 4 ->
            Z.testbit (readable (mkEnv (-1) (fd_mask [7]) false (fun _ => None))) m = false.
Proof.
  apply (pass_is_quiet_iff_nothing_pending
           (mkEnv (-1) (fd_mask [7]) false (fun _ => None))
           (after [env_first])
           (after [env_first; mkEnv (-1) (fd_mask [7]) false (fun _ => None)])
           4 (fd_mask [3; 4])).
  - vm_compute. reflexivity.
  - discriminate.
  - reflexivity.
  - vm_compute. reflexivity.
Defined.

(* ------------------------------------------------------------------ *)
(** ** The conversation with one client *)

Lemma writes_to_app (k : Z) (a b : list event) :
  writes_to k (a ++ b) = writes_to k a ++ writes_to k b.
Proof. unfold writes_to. apply flat_map_app. Qed.

Lemma writes_to_logs (k : Z) (d : list diag) : writes_to k (map EvLog d) = [].
Proof. induction d as [|x d IH]; simpl; auto. Qed.

(** Writes and reads on client [k] over whole segments, by the phase the
    client is in. *)
Lemma segments_conversation (k : Z) (evs : list event) :
  segments evs ->
  protocol k evs <> Broken ->
  match protocol k evs with
  | Unborn => writes_to k evs = [] /\ reads_of k evs = []
  | Awaiting => writes_to k evs = HELLO :: repeat ENTERCMD (length (reads_of k evs))
  | Gone => writes_to k evs = HELLO :: repeat ENTERCMD (length (reads_of k evs) - 1) /\
            (0 < length (reads_of k evs))%nat
  | _ => False
  end.
Proof.
  induction 1 as [|evs seg _ IH Hs]; intros Hnb; [now split|].
  assert (Hnb0 : protocol k evs <> Broken).
  { intros E. apply Hnb. now rewrite protocol_app, E, protocol_broken. }
  specialize (IH Hnb0). rewrite protocol_app in Hnb |- *.
  rewrite writes_to_app, reads_of_app, length_app.
  destruct Hs as [|ret c|c r d Hwhy|c r said Hpos _].
  - simpl. rewrite !app_nil_r, Nat.add_0_r. exact IH.
  - unfold protocol_from in *. simpl in *.
    destruct (id c =? k).
    + destruct (protocol k evs); try (now contradiction Hnb).
      destruct IH as [-> ->]. reflexivity.
    + rewrite !app_nil_r, Nat.add_0_r. exact IH.
  - change (EvRead c r :: map EvLog d ++ [EvClose c])
      with ([EvRead c r] ++ map EvLog d ++ [EvClose c]) in *.
    rewrite !writes_to_app, !reads_of_app, writes_to_logs, reads_of_logs.
    rewrite !protocol_from_app, protocol_logs in Hnb |- *.
    unfold protocol_from in *. simpl in *.
    destruct (id c =? k).
    + destruct (protocol k evs); try (now contradiction Hnb).
      rewrite IH, app_nil_r. simpl. rewrite Nat.add_1_r. simpl.
      rewrite Nat.sub_0_r. split; [reflexivity|lia].
    + rewrite !app_nil_r, Nat.add_0_r. exact IH.
  - unfold protocol_from in *. simpl in *.
    destruct (id c =? k).
    + destruct (protocol k evs); try (now contradiction Hnb).
      apply Z.ltb_lt in Hpos. rewrite Hpos in *. simpl in *.
      rewrite IH. simpl. rewrite Nat.add_1_r. simpl.
      now rewrite <- repeat_cons.
    + rewrite !app_nil_r, Nat.add_0_r. exact IH.
Qed.

(** X16.  In every run the bytes written to a client are the greeting,
    once and first, followed by one prompt for each read made on it, less
    the last read when the client has been dropped; nothing is written
    under an id that was not handed out. *)
Theorem client_is_greeted_once_and_prompted_per_read
        (srv : Z) (path : string) (buf : bytes) (envs : list pass_env) (st : state)
        (k : Z) :
  run envs (initial srv path buf) = Some st ->
  writes_to k (trace st)
  = if (1 <=? k) && (k <=? count st)
    then HELLO :: repeat ENTERCMD
                    (length (reads_of k (trace st))
                     - (if registered k (clientSockets st) then 0 else 1))
    else [].
Proof.
  intros Hrun.
  pose proof (reachable_consistent _ _ _ _ _ Hrun) as Cst.
  destruct (run_progress _ _ _ Hrun) as (Hseg & Ht & _).
  simpl in Ht. rewrite <- Ht in Hseg.
  pose proof (segments_conversation k _ Hseg) as Hconv.
  rewrite (in_protocol _ Cst) in Hconv. specialize (Hconv (expected_sound st k)).
  destruct (expected_cases st k) as [[Hreg He]|[(Hreg & Hk & He)|(Hreg & Hk & He)]];
    rewrite He in Hconv; rewrite Hreg.
  - assert (Hin : 1 <= k <= count st).
    { unfold registered in Hreg. apply existsb_exists in Hreg.
      destruct Hreg as (c & Hc & Hid). apply Z.eqb_eq in Hid. subst k.
      now apply (ids_counted _ Cst). }
    replace ((1 <=? k) && (k <=? count st)) with true
      by (symmetry; apply andb_true_iff; split; apply Z.leb_le; lia).
    now rewrite Nat.sub_0_r.
  - replace ((1 <=? k) && (k <=? count st)) with true
      by (symmetry; apply andb_true_iff; split; apply Z.leb_le; lia).
    now destruct Hconv.
  - replace ((1 <=? k) && (k <=? count st)) with false; [now destruct Hconv|].
    symmetry. apply andb_false_iff.
    destruct (Z.leb_spec 1 k); [|now left]. right. apply Z.leb_gt. lia.
Qed.

Lemma client_is_greeted_witness :
  writes_to 1 (trace (after [env_first; env_second;
                             env_both (Some (text "hey")) (Some (text "hi"));
                             env_both (Some (text "quit")) None]))
  = [HELLO; ENTERCMD].
Proof.
  apply (client_is_greeted_once_and_prompted_per_read
           3 "mu.sock" stack_bytes
           [env_first; env_second;
            env_both (Some (text "hey")) (Some (text "hi"));
            env_both (Some (text "quit")) None]
           (after [env_first; env_second;
                   env_both (Some (text "hey")) (Some (text "hi"));
                   env_both (Some (text "quit")) None]) 1).
  vm_compute. reflexivity.
Defined.
